(** * GitHub issue analyser: the ingest / cache / analyze pipeline

    A shallow embedding of [app/database.py], [app/github_client.py],
    [app/llm_client.py], [app/utils.py] and the two request handlers of
    [app/main.py], followed by the properties of the pipeline.

    Conventions.
    - A Python [str] is a [string]; one [ascii] stands for one character, so
      [String.length] is Python's [len] and [take_str n] is the slice [[:n]].
    - The SQLite table [issues] has [id INTEGER PRIMARY KEY]: it is a finite
      map from the key to the row, a [gmap Z row.t].
    - The remote tracker and the text-generation backend are the two
      collaborators outside the program.  The tracker is a function from the
      requested page number to what [requests.get] does for that request; the
      backend is a state machine.  Every call that the program makes to
      either of them is written to a log that the functions return.

    Outside the model.
    - Faults of the store: of the [sqlite3.Error]s that the functions of
      [database.py] catch, the model has the one that the program can bring
      about itself, the violation of the primary key.  An identifier beyond
      64 bits, which [sqlite3] refuses with [OverflowError], is not
      modelled either.
    - A completion whose [message.content] is [None], and exceptions of the
      tracker other than those of [requests].
    The statements below are about runs without these. *)

From Stdlib Require Import ZArith Lia Ascii.
From stdpp Require Import base option list sorting strings pretty gmap fin_maps.

Local Open Scope Z_scope.

(** ** Data model *)

(** An issue as the tracker's JSON has it, restricted to the keys that the
    program reads.  [body] is [None] when the key is missing or [null];
    [pull_request] is [Some _] exactly when the key ['pull_request'] is
    present. *)
Module issue.
Record t := mk {
  id : Z;
  title : string;
  body : option string;
  html_url : string;
  created_at : string;
  pull_request : option string;
}.
End issue.

(** A row of the table [issues], and at the same time the [dict(row)] that
    [get_cached_issues] returns (the column [cached_at] is never read). *)
Module row.
Record t := mk {
  id : Z;
  repo : string;
  title : string;
  body : string;
  html_url : string;
  created_at : string;
}.

#[export] Instance eq_dec : EqDecision t.
Proof. solve_decision. Defined.
End row.

(** ** [app/database.py] *)

Abbreviation Table := (gmap Z row.t).

(** [ORDER BY created_at DESC]: the column is TEXT, compared byte by byte. *)
Definition created_desc (r1 r2 : row.t) : Prop :=
  String.le (row.created_at r2) (row.created_at r1).

#[export] Instance created_desc_dec : RelDecision created_desc.
Proof. intros r1 r2. unfold created_desc. apply _. Defined.

#[export] Instance created_desc_total : Total created_desc.
Proof.
  intros r1 r2. unfold created_desc.
  destruct (total String.le (row.created_at r1) (row.created_at r2)); auto.
Qed.

#[export] Instance created_desc_trans : Transitive created_desc.
Proof. intros r1 r2 r3 H12 H23. unfold created_desc in *. by etrans. Qed.

(** [WHERE repo = ?] *)
Definition where_repo (repo : string) (db : Table) : Table :=
  filter (λ kv, row.repo kv.2 = repo) db.

(** [DELETE FROM issues WHERE repo = ?] *)
Definition sql_delete (repo : string) (db : Table) : Table :=
  filter (λ kv, row.repo kv.2 ≠ repo) db.

(** [INSERT INTO issues (id, ...) VALUES (?, ...)].  [None] is
    [sqlite3.IntegrityError]: the primary key is already in the table. *)
Definition sql_insert (r : row.t) (db : Table) : option Table :=
  match db !! row.id r with
  | Some _ => None
  | None => Some (<[row.id r := r]> db)
  end.

(** The tuple of values bound in the INSERT of [cache_issues];
    [issue.get('body') or ''] turns a missing body into the empty string. *)
Definition row_of_issue (repo : string) (i : issue.t) : row.t :=
  {| row.id := issue.id i;
     row.repo := repo;
     row.title := issue.title i;
     row.body := default "" (issue.body i);
     row.html_url := issue.html_url i;
     row.created_at := issue.created_at i |}.

(** [for issue in issues: cursor.execute(INSERT ...)] *)
Fixpoint insert_issues (repo : string) (issues : list issue.t) (db : Table)
  : option Table :=
  match issues with
  | [] => Some db
  | i :: rest =>
      match sql_insert (row_of_issue repo i) db with
      | Some db' => insert_issues repo rest db'
      | None => None
      end
  end.

(** [cache_issues(repo, issues)].  The DELETE and the INSERTs run in one
    transaction; [conn.commit()] is reached only when every INSERT went
    through.  On [sqlite3.Error] the connection is closed without a commit,
    so the table is what it was, and the function returns [False].  The
    error of the model is the violation of the primary key; [True] is
    therefore what the code returns on a run without a fault of the store
    and with identifiers within 64 bits. *)
Definition cache_issues (repo : string) (issues : list issue.t) (db : Table)
  : bool * Table :=
  match insert_issues repo issues (sql_delete repo db) with
  | Some db' => (true, db')
  | None => (false, db)
  end.

(** The order in which the SELECT of [get_cached_issues] returns two rows:
    the newer one first and, for equal [created_at], the one with the
    smaller [id] first.  SQL leaves the second part open; SQLite visits the
    rows of the key by ascending [id] and its sort keeps that order. *)
Definition row_order (r1 r2 : row.t) : Prop :=
  if decide (row.created_at r1 = row.created_at r2)
  then row.id r1 ≤ row.id r2
  else created_desc r1 r2.

#[export] Instance row_order_dec : RelDecision row_order.
Proof. intros r1 r2. unfold row_order. case_decide; apply _. Defined.

#[export] Instance row_order_total : Total row_order.
Proof.
  intros r1 r2. unfold row_order.
  destruct (decide (row.created_at r1 = row.created_at r2)) as [E|E].
  - rewrite decide_True by done. lia.
  - rewrite decide_False by done. apply (total created_desc).
Qed.

(** [SELECT id, repo, title, body, html_url, created_at FROM issues
     WHERE repo = ? ORDER BY created_at DESC], then [cursor.fetchall()]. *)
Definition select_rows (repo : string) (db : Table) : list row.t :=
  merge_sort row_order (map_to_list (where_repo repo db)).*2.

(** [get_cached_issues(repo)]: [if not rows: return None].  [None] is the
    answer for a key without rows; the [None] of the handler of
    [sqlite3.Error] belongs to the faults of the store. *)
Definition get_cached_issues (repo : string) (db : Table)
  : option (list row.t) :=
  match select_rows repo db with
  | [] => None
  | rows => Some rows
  end.

(** [repo_exists_in_cache(repo)]: [SELECT COUNT( * ) ... WHERE repo = ?],
    then [count > 0]. *)
Definition repo_exists_in_cache (repo : string) (db : Table) : bool :=
  bool_decide (0 < Z.of_nat (size (where_repo repo db))).

(** ** Strings *)

(** The line feed of the f-strings and of ["\n\n".join]. *)
Definition nl : string := String "010"%char EmptyString.

(** The slice [s[:n]]. *)
Definition take_str (n : nat) (s : string) : string := String.substring 0 n s.

(** [c.isspace()] for a character below 256. *)
Definition isspace (c : ascii) : bool :=
  let n := nat_of_ascii c in
  bool_decide (n ∈ [9; 10; 11; 12; 13; 28; 29; 30; 31; 32; 133; 160]%nat).

Fixpoint lstrip (s : string) : string :=
  match s with
  | String c s' => if isspace c then lstrip s' else s
  | EmptyString => EmptyString
  end.

(** [s.strip()] *)
Definition strip (s : string) : string :=
  String.rev (lstrip (String.rev (lstrip s))).

(** [s.split(sep)] for a one-character separator. *)
Fixpoint split (sep : ascii) (s : string) : list string :=
  match s with
  | EmptyString => [EmptyString]
  | String c s' =>
      if decide (c = sep) then EmptyString :: split sep s'
      else match split sep s' with
           | p :: ps => String c p :: ps
           | [] => [String c EmptyString]
           end
  end.

(** [c.lower()] on the letters A to Z; other characters are kept. *)
Definition lower_char (c : ascii) : ascii :=
  let n := nat_of_ascii c in
  if bool_decide (65 ≤ n ≤ 90)%nat then ascii_of_nat (n + 32) else c.

Fixpoint lower (s : string) : string :=
  match s with
  | String c s' => String (lower_char c) (lower s')
  | EmptyString => EmptyString
  end.

(** [needle in s] *)
Fixpoint contains (needle s : string) : bool :=
  String.prefix needle s ||
  match s with
  | String _ s' => contains needle s'
  | EmptyString => false
  end.

(** ** [app/github_client.py] *)

Module http.
(** The fields of a [requests.Response] that the client reads. *)
Record response := mk {
  status_code : Z;
  json : list issue.t;
  text : string;
}.

(** What one [requests.get(..., timeout=30)] does. *)
Inductive outcome :=
| Response (r : response)
| Timeout
| RequestException (msg : string).
End http.

(** The dictionary with the keys ['success'], ['issues'] and ['error']. *)
Module fetched.
Record t := mk {
  success : bool;
  issues : list issue.t;
  error : option string;
}.
End fetched.

Definition per_page : nat := 100.

(** [if github_token:] is true for a variable that is set and not empty. *)
Definition truthy (o : option string) : bool :=
  match o with
  | Some (String _ _) => true
  | _ => false
  end.

(** ['pull_request' not in issue] *)
Definition not_pull_request (i : issue.t) : Prop := issue.pull_request i = None.

#[export] Instance not_pull_request_dec i : Decision (not_pull_request i).
Proof. unfold not_pull_request. apply _. Defined.

Section github_client.
(** [os.getenv("GITHUB_TOKEN")] *)
Variable github_token : option string.
(** The tracker: what the GET with [params["page"] = page] does.  The loop
    asks for every page number at most once, so a function of the page
    number covers a tracker that changes between requests. *)
Variable remote : nat → http.outcome.
Variable repo : string.

Definition fetch_failed (error_msg : string) : fetched.t :=
  fetched.mk false [] (Some error_msg).

(** The body of [while True:], entered with the current [page] and the
    [issues] collected so far.  It returns the dictionary and the page
    numbers it asked for, in the order of the requests; [None] stands for
    a loop that is still running when the fuel is used up. *)
Fixpoint fetch_pages (fuel page : nat) (issues : list issue.t)
  : option (fetched.t * list nat) :=
  match fuel with
  | O => None
  | S fuel' =>
      match remote page with
      | http.Timeout =>
          Some (fetch_failed "GitHub API request timed out", [page])
      | http.RequestException e =>
          Some (fetch_failed ("Network error while fetching issues: " +:+ e),
                [page])
      | http.Response response =>
          if decide (http.status_code response = 403) then
            let error_msg := "GitHub API rate limit exceeded" in
            let error_msg :=
              if truthy github_token then error_msg
              else error_msg +:+ ". Add GITHUB_TOKEN to .env for higher limits" in
            Some (fetch_failed error_msg, [page])
          else if decide (http.status_code response = 404) then
            Some (fetch_failed ("Repository '" +:+ repo +:+ "' not found"),
                  [page])
          else if decide (http.status_code response ≠ 200) then
            Some (fetch_failed
                    ("GitHub API error: " +:+ pretty (http.status_code response)),
                  [page])
          else
            let page_issues := http.json response in
            match page_issues with
            | [] => Some (fetched.mk true issues None, [page])
            | _ =>
                let actual_issues := filter not_pull_request page_issues in
                let issues := issues ++ actual_issues in
                if decide (length page_issues < per_page)%nat then
                  Some (fetched.mk true issues None, [page])
                else
                  match fetch_pages fuel' (page + 1) issues with
                  | Some (result, pages) => Some (result, page :: pages)
                  | None => None
                  end
            end
      end
  end.

(** [fetch_all_issues(repo)]: [issues = []], [page = 1]. *)
Definition fetch_all_issues (fuel : nat) : option (fetched.t * list nat) :=
  fetch_pages fuel 1 [].
End github_client.

(** ** [app/llm_client.py] *)

(** An issue dictionary as [format_issues_for_llm] reads it, with
    [issue.get(key, default)]: a field is [None] when the key is missing. *)
Module idict.
Record t := mk {
  title : option string;
  body : option string;
  created_at : option string;
  html_url : option string;
}.
End idict.

(** The dictionaries that [analyze_repo] passes on are rows of the cache:
    every key is there. *)
Definition idict_of_row (r : row.t) : idict.t :=
  {| idict.title := Some (row.title r);
     idict.body := Some (row.body r);
     idict.created_at := Some (row.created_at r);
     idict.html_url := Some (row.html_url r) |}.

Module chat.
(** The arguments of [client.chat.completions.create], but for the
    temperature, a floating point constant. *)
Record request := mk {
  model : string;
  system : string;
  user : string;
  max_tokens : Z;
  timeout : Z;
}.

(** One call and the reading of [response.choices[0].message.content]:
    the text, or an exception [e], kept as [str(e)].  A completion without
    content is outside the model. *)
Inductive outcome :=
| Content (text : string)
| Raises (e : string).
End chat.

(** The dictionary with the keys ['success'], ['analysis'] and ['error']. *)
Module analysis.
Record t := mk {
  success : bool;
  analysis : string;
  error : option string;
}.
End analysis.

(** [if body and len(body) > 500: body = body[:500] + "..."] *)
Definition truncate_body (body : string) : string :=
  if decide (body ≠ "" ∧ 500 < String.length body)%nat
  then take_str 500 body +:+ "..."
  else body.

(** [body if body else "No description provided"] *)
Definition description (body : string) : string :=
  if decide (body = "") then "No description provided" else body.

(** The template of the f-string of one issue: the ordinal, the title, the
    date, the URL and what stands behind [Description:]. *)
Definition issue_text (idx : nat) (title created_at url shown : string)
  : string :=
  "Issue #" +:+ pretty idx +:+ ":" +:+ nl +:+
  "Title: " +:+ title +:+ nl +:+
  "Created: " +:+ created_at +:+ nl +:+
  "URL: " +:+ url +:+ nl +:+
  "Description: " +:+ shown +:+ nl +:+
  "---".

(** The body of the [for] loop of [format_issues_for_llm]; [idx] counts
    from 1. *)
Definition format_issue (idx : nat) (issue : idict.t) : string :=
  let title := default "No title" (idict.title issue) in
  let body := default "" (idict.body issue) in
  let created_at := default "Unknown date" (idict.created_at issue) in
  let url := default "" (idict.html_url issue) in
  let body := truncate_body body in
  issue_text idx title created_at url (description body).

(** [format_issues_for_llm(issues)]: [enumerate(issues, 1)], then
    ["\n\n".join(formatted_parts)]. *)
Definition format_issues_for_llm (issues : list idict.t) : string :=
  String.concat (nl +:+ nl) (imap (λ k issue, format_issue (S k) issue) issues).

Definition system_prompt : string :=
  "You are a GitHub issue analyzer. Analyze the provided issues " +:+
  "and respond to the user's request clearly and concisely. " +:+
  "Focus on actionable insights and patterns.".

Definition max_retries : nat := 2.

(** The dictionary of the outer [except Exception as e:]. *)
Definition analysis_error (e : string) : analysis.t :=
  analysis.mk false "" (Some ("LLM analysis error: " +:+ e)).

(** How the [for] loop over the attempts is left. *)
Inductive loop_exit :=
| Returned (result : analysis.t)
| Raised (e : string)
| Exhausted.

Section llm_client.
(** The state of the text-generation service. *)
Context {B : Type}.

(** A configured client: one call of [chat.completions.create]. *)
Definition Client : Type := chat.request → B → chat.outcome * B.

(** [for attempt in range(max_retries)], with the requests that were
    sent, in order. *)
Fixpoint attempt_loop (create : Client) (attempts : list nat)
    (req : chat.request) (b : B) : loop_exit * B * list chat.request :=
  match attempts with
  | [] => (Exhausted, b, [])
  | attempt :: rest =>
      match create req b with
      | (chat.Content analysis, b') =>
          (Returned (analysis.mk true analysis None), b', [req])
      | (chat.Raises e, b') =>
          if decide (attempt = max_retries - 1)%nat then (Raised e, b', [req])
          else
            let '(exit, b'', sent) := attempt_loop create rest req b' in
            (exit, b'', req :: sent)
      end
  end.

(** [if len(issues) > 100: issues = issues[:50]] *)
Definition limit_issues (issues : list idict.t) : list idict.t :=
  if decide (100 < length issues)%nat then take 50 issues else issues.

Definition user_message (user_prompt : string) (issues : list idict.t)
  : string :=
  user_prompt +:+ nl +:+ nl +:+ "Issues to analyze:" +:+ nl +:+ nl +:+
  format_issues_for_llm issues.

Definition completion_request (user_prompt : string)
    (issues : list idict.t) : chat.request :=
  {| chat.model := "llama-3.3-70b-versatile";
     chat.system := system_prompt;
     chat.user := user_message user_prompt issues;
     chat.max_tokens := 2048;
     chat.timeout := 60 |}.

(** [analyze_issues(issues, user_prompt)].  [client] is the module's
    global, [None] without an API key.  The result is the dictionary
    (Python's [None] if the loop ended without a [return]), the state of
    the service and the requests sent to it. *)
Definition analyze_issues (client : option Client) (issues : list idict.t)
    (user_prompt : string) (b : B)
  : option analysis.t * B * list chat.request :=
  match client with
  | None =>
      (Some (analysis.mk false "" (Some "Groq API key not configured")), b, [])
  | Some create =>
      let issues := limit_issues issues in
      let req := completion_request user_prompt issues in
      match attempt_loop create (seq 0 max_retries) req b with
      | (Returned result, b', sent) => (Some result, b', sent)
      | (Raised e, b', sent) => (Some (analysis_error e), b', sent)
      | (Exhausted, b', sent) => (None, b', sent)
      end
  end.
End llm_client.

(** ** [app/utils.py] *)

(** [validate_repo_format(repo)]: [len(parts) == 2 and
    all(part.strip() for part in parts)]. *)
Definition validate_repo_format (repo : string) : bool :=
  let parts := split "/"%char repo in
  bool_decide (length parts = 2%nat) &&
  forallb (λ part, bool_decide (strip part ≠ "")) parts.

(** ** [app/main.py] *)

(** What a handler does: it returns its response model, raises
    [HTTPException(status_code, detail={"error", "details"})], or lets
    another exception escape. *)
Inductive handled (A : Type) :=
| Responds (a : A)
| HTTPException (status_code : Z) (error details : string)
| Escapes (e : string).
Arguments Responds {A} a.
Arguments HTTPException {A} status_code error details.
Arguments Escapes {A} e.

Module ScanResponse.
Record t := mk {
  repo : string;
  issues_fetched : nat;
  cached_successfully : bool;
}.
End ScanResponse.

Definition invalid_repo_format {A} : handled A :=
  HTTPException 400 "Invalid repository format"
    "Repository must be in format 'owner/repository-name'".

(** [scan_repo(request)] on the cache [db], with the page numbers asked of
    the tracker. *)
Definition scan_repo (github_token : option string)
    (remote : nat → http.outcome) (fuel : nat) (request_repo : string)
    (db : Table) : option (handled ScanResponse.t * Table * list nat) :=
  let repo := strip request_repo in
  if negb (validate_repo_format repo) then Some (invalid_repo_format, db, [])
  else
    match fetch_all_issues github_token remote repo fuel with
    | None => None
    | Some (result, pages) =>
        if negb (fetched.success result) then
          let error := default "" (fetched.error result) in
          let status_code :=
            if contains "not found" (lower error) then 404 else 500 in
          Some (HTTPException status_code error
                  "Failed to fetch issues from GitHub API", db, pages)
        else
          let issues := fetched.issues result in
          let issues_count := length issues in
          let '(cached_successfully, db') := cache_issues repo issues db in
          if negb cached_successfully then
            Some (HTTPException 500 "Failed to cache issues"
                    "Issues were fetched but could not be saved to database",
                  db', pages)
          else
            Some (Responds (ScanResponse.mk repo issues_count true), db', pages)
    end.

Definition no_open_issues (repo : string) : string :=
  "The repository '" +:+ repo +:+ "' has no open issues to analyze.".

Section analyze.
Context {B : Type}.

(** [analyze_repo(request)]: the response ([AnalyzeResponse.analysis]),
    the state of the text-generation service and the requests sent. *)
Definition analyze_repo (client : option (@Client B))
    (request_repo request_prompt : string) (db : Table) (b : B)
  : handled string * B * list chat.request :=
  let repo := strip request_repo in
  let user_prompt := strip request_prompt in
  if negb (validate_repo_format repo) then (invalid_repo_format, b, [])
  else if decide (user_prompt = "") then
    (HTTPException 400 "Empty prompt" "Analysis prompt cannot be empty", b, [])
  else if negb (repo_exists_in_cache repo db) then
    (HTTPException 400 "Repository not yet scanned"
       ("Please scan the repository '" +:+ repo +:+
        "' first using the /scan endpoint"), b, [])
  else
    match get_cached_issues repo db with
    | None =>
        (HTTPException 500 "Failed to retrieve cached issues"
           "Issues exist but could not be loaded from database", b, [])
    | Some issues =>
        if decide (length issues = 0%nat) then
          (Responds (no_open_issues repo), b, [])
        else
          match analyze_issues client (idict_of_row <$> issues) user_prompt b with
          | (None, b', sent) =>
              (Escapes "TypeError: 'NoneType' object is not subscriptable",
               b', sent)
          | (Some result, b', sent) =>
              if negb (analysis.success result) then
                (HTTPException 500 (default "" (analysis.error result))
                   "Failed to analyze issues with LLM", b', sent)
              else (Responds (analysis.analysis result), b', sent)
          end
    end.
End analyze.

(** ** Concrete collaborators and data for the examples *)

(** A text-generation service that answers from a script, one entry a
    call, and refuses the connection once the script is over. *)
Definition scripted : @Client (list chat.outcome) :=
  λ _ b,
    match b with
    | o :: b' => (o, b')
    | [] => (chat.Raises "Connection error.", [])
    end.

(** A tracker for which every page is empty: a repository without open
    issues. *)
Definition no_issues_remote : nat → http.outcome :=
  λ _, http.Response (http.mk 200 [] "[]").

Definition sample_issue (n : nat) : issue.t :=
  {| issue.id := Z.of_nat n;
     issue.title := "Crash on start " +:+ pretty n;
     issue.body := None;
     issue.html_url := "https://github.com/a/b/issues/" +:+ pretty n;
     issue.created_at := "2024-01-" +:+ pretty (10 + n)%nat +:+ "T00:00:00Z";
     issue.pull_request := None |}.

(** The same record as the tracker returns it for a pull request. *)
Definition sample_pull (n : nat) : issue.t :=
  {| issue.id := Z.of_nat n;
     issue.title := "Fix crash " +:+ pretty n;
     issue.body := Some "Closes the crash.";
     issue.html_url := "https://github.com/a/b/pull/" +:+ pretty n;
     issue.created_at := "2024-02-" +:+ pretty (10 + n)%nat +:+ "T00:00:00Z";
     issue.pull_request := Some "https://api.github.com/repos/a/b/pulls" |}.

(** A tracker with the given numbers of records on its pages 1, 2, ...,
    made by [record], and empty pages after them. *)
Definition paged_remote (record : nat → issue.t) (sizes : list nat)
  : nat → http.outcome :=
  λ page,
    match sizes !! (page - 1)%nat with
    | Some n =>
        http.Response
          (http.mk 200 (record <$> seq (per_page * (page - 1)) n) "")
    | None => http.Response (http.mk 200 [] "[]")
    end.

(** Issues and pull requests in turn. *)
Definition mixed_record (n : nat) : issue.t :=
  if Nat.even n then sample_pull n else sample_issue n.

(** A cache that holds one issue of the repository [x/y]. *)
Definition other_repo_db : Table := (cache_issues "x/y" [sample_issue 7] ∅).2.

(** ** Vocabulary of the properties *)

(** A page that answers with status 200 and at least [per_page] records,
    and one that answers with status 200 and fewer. *)
Definition is_full_page (o : http.outcome) : bool :=
  match o with
  | http.Response r =>
      bool_decide (http.status_code r = 200) &&
      bool_decide (per_page ≤ length (http.json r))%nat
  | _ => false
  end.

Definition is_short_page (o : http.outcome) : bool :=
  match o with
  | http.Response r =>
      bool_decide (http.status_code r = 200) &&
      bool_decide (length (http.json r) < per_page)%nat
  | _ => false
  end.

(** The records of a page. *)
Definition page_records (o : http.outcome) : list issue.t :=
  match o with
  | http.Response r => http.json r
  | _ => []
  end.

(** The issues of the pages [first], ..., [first + n - 1] of the tracker,
    without the pull requests, in the order of the pages. *)
Definition issues_of_pages (remote : nat → http.outcome) (first n : nat)
  : list issue.t :=
  concat ((λ p, filter not_pull_request (page_records (remote p))) <$> seq first n).

(** [replace] followed by [read] as the specification has it: [read]
    returns the rows of exactly the issues passed, newest first.  The row
    of an issue is written out, column by column. *)
Definition replace_then_read (repo : string) (issues : list issue.t)
    (db : Table) : Prop :=
  ∃ rows,
    get_cached_issues repo (cache_issues repo issues db).2 = Some rows ∧
    rows ≡ₚ (λ i, {| row.id := issue.id i;
                     row.repo := repo;
                     row.title := issue.title i;
                     row.body := default "" (issue.body i);
                     row.html_url := issue.html_url i;
                     row.created_at := issue.created_at i |}) <$> issues ∧
    Sorted created_desc rows.

(** The user message that carries the issues [submitted], written out: the
    prompt, the heading, and for every issue, in order and numbered from
    1, the block with its title, date, URL and description. *)
Definition request_text (user_prompt : string) (submitted : list idict.t)
  : string :=
  user_prompt +:+ nl +:+ nl +:+ "Issues to analyze:" +:+ nl +:+ nl +:+
  String.concat (nl +:+ nl)
    (imap (λ k issue,
       "Issue #" +:+ pretty (S k) +:+ ":" +:+ nl +:+
       "Title: " +:+ default "No title" (idict.title issue) +:+ nl +:+
       "Created: " +:+ default "Unknown date" (idict.created_at issue) +:+ nl +:+
       "URL: " +:+ default "" (idict.html_url issue) +:+ nl +:+
       "Description: " +:+
         description (truncate_body (default "" (idict.body issue))) +:+ nl +:+
       "---") submitted).

(** 120 issues of the repository [a/b], as the cache returns them. *)
Definition issues120 : list idict.t :=
  (λ n, idict_of_row (row_of_issue "a/b" (sample_issue n))) <$> seq 1 120.

(** A body of 600 characters. *)
Definition body600 : string := String.concat "" (replicate 600 "x").

(** The character [c] occurs in [s]. *)
Fixpoint occurs (c : ascii) (s : string) : bool :=
  match s with
  | String c' s' => bool_decide (c' = c) || occurs c s'
  | EmptyString => false
  end.

(** A page that does not answer with status 200: another status, a
    timeout or a fault of the transport. *)
Definition is_error_page (o : http.outcome) : bool :=
  match o with
  | http.Response r => bool_decide (http.status_code r ≠ 200)
  | _ => true
  end.

(** A tracker that answers [last] on the page [k] and with 100 issues on
    every other page. *)
Definition remote_until (k : nat) (last : http.outcome) : nat → http.outcome :=
  λ page,
    if decide (page = k) then last
    else http.Response (http.mk 200 (sample_issue <$> seq 0 per_page) "").

(** The key of every row is the [id] that the row carries: the table is
    indexed by its primary key. *)
Definition key_consistent (db : Table) : Prop :=
  map_Forall (λ k r, row.id r = k) db.

(** A cache that holds three issues of [a/b] beside the one of [x/y]. *)
Definition two_repo_db : Table :=
  (cache_issues "a/b" [sample_issue 1; sample_issue 3; sample_issue 2]
     other_repo_db).2.

(** * Properties *)

(** ** The cache *)

Section database_facts.
Implicit Types (db : Table) (repo : string) (issues : list issue.t).

Lemma where_repo_lookup repo db k r :
  where_repo repo db !! k = Some r ↔ db !! k = Some r ∧ row.repo r = repo.
Proof. unfold where_repo. by rewrite map_lookup_filter_Some. Qed.

Lemma sql_delete_lookup repo db k r :
  sql_delete repo db !! k = Some r ↔ db !! k = Some r ∧ row.repo r ≠ repo.
Proof. unfold sql_delete. by rewrite map_lookup_filter_Some. Qed.

(** After the DELETE no row of the key is left. *)
Lemma where_repo_sql_delete repo db : where_repo repo (sql_delete repo db) = ∅.
Proof.
  apply map_empty. intros k. apply eq_None_not_Some. intros [r Hr].
  apply where_repo_lookup in Hr as [Hr Heq].
  apply sql_delete_lookup in Hr as [_ Hne]. done.
Qed.

(** The DELETE does not touch the rows of another key. *)
Lemma where_repo_sql_delete_ne repo repo' db :
  repo ≠ repo' → where_repo repo' (sql_delete repo db) = where_repo repo' db.
Proof.
  intros Hne. apply map_eq. intros k. apply option_eq. intros r.
  rewrite !where_repo_lookup, sql_delete_lookup. split; [tauto|].
  intros [Hk Hr]. split_and!; congruence.
Qed.

Lemma sql_insert_Some r db db' :
  sql_insert r db = Some db' ↔ db !! row.id r = None ∧ db' = <[row.id r := r]> db.
Proof.
  unfold sql_insert. destruct (db !! row.id r) eqn:E.
  - split; [done|]. by intros [? _].
  - split; [intros [= <-]; done|]. by intros [_ ->].
Qed.

Lemma where_repo_insert repo db r :
  row.repo r = repo →
  where_repo repo (<[row.id r := r]> db) = <[row.id r := r]> (where_repo repo db).
Proof. intros Hr. unfold where_repo. by rewrite map_filter_insert_True. Qed.

Lemma where_repo_insert_ne repo db r :
  db !! row.id r = None → row.repo r ≠ repo →
  where_repo repo (<[row.id r := r]> db) = where_repo repo db.
Proof.
  intros Hfree Hr. unfold where_repo.
  apply map_filter_insert_not'; [done|]. intros y. by rewrite Hfree.
Qed.

(** The rows that the INSERT loop writes: in the table before the loop
    their keys are free, and afterwards the rows of the key are the old
    ones and the new ones. *)
Lemma insert_issues_rows repo issues db db' :
  insert_issues repo issues db = Some db' →
  (map_to_list (where_repo repo db')).*2
    ≡ₚ (row_of_issue repo <$> issues) ++ (map_to_list (where_repo repo db)).*2.
Proof.
  revert db. induction issues as [|i issues IH]; intros db Hins; simpl in *.
  - by simplify_eq.
  - destruct (sql_insert (row_of_issue repo i) db) as [db1|] eqn:E; [|done].
    apply sql_insert_Some in E as [Hfree ->].
    rewrite (IH _ Hins), where_repo_insert by done.
    rewrite map_to_list_insert; simpl.
    + by rewrite Permutation_middle.
    + apply eq_None_not_Some. intros [r Hr].
      apply where_repo_lookup in Hr as [Hr _]. simpl in *. congruence.
Qed.

(** The INSERT loop leaves the rows of every other key as they are. *)
Lemma insert_issues_frame repo repo' issues db db' :
  repo ≠ repo' → insert_issues repo issues db = Some db' →
  where_repo repo' db' = where_repo repo' db.
Proof.
  intros Hne. revert db. induction issues as [|i issues IH]; intros db Hins; simpl in *.
  - by simplify_eq.
  - destruct (sql_insert (row_of_issue repo i) db) as [db1|] eqn:E; [|done].
    apply sql_insert_Some in E as [Hfree ->].
    rewrite (IH _ Hins). by apply where_repo_insert_ne.
Qed.

(** When the INSERT loop goes through: the identifiers are pairwise
    distinct and none of them is a key of the table. *)
Lemma insert_issues_is_Some repo issues db :
  is_Some (insert_issues repo issues db) ↔
  NoDup (issue.id <$> issues) ∧ ∀ i, i ∈ issues → db !! issue.id i = None.
Proof.
  revert db. induction issues as [|i issues IH]; intros db; simpl.
  - split; [intros _; split; [constructor|by intros ? ?%elem_of_nil]|eauto].
  - destruct (sql_insert (row_of_issue repo i) db) as [db1|] eqn:E.
    + apply sql_insert_Some in E as [Hfree ->]. simpl in *.
      rewrite IH, NoDup_cons. split.
      * intros [Hnd Hall]. split_and!; [|done|].
        -- intros (j & Hj & Hin)%list_elem_of_fmap.
           specialize (Hall j Hin). rewrite <- Hj in Hall.
           by rewrite lookup_insert_eq in Hall.
        -- intros j [->|Hin]%elem_of_cons; [done|].
           specialize (Hall j Hin).
           apply lookup_insert_None in Hall. tauto.
      * intros [[Hi Hnd] Hall]. split; [done|]. intros j Hin.
        apply lookup_insert_None. split; [apply Hall; by right|].
        intros Heq. apply Hi, list_elem_of_fmap. eauto.
    + split; [by intros [? ?]|]. intros [_ Hall]. exfalso.
      unfold sql_insert in E. simpl in E.
      rewrite (Hall i) in E by left. done.
Qed.

Lemma cache_issues_ok repo issues db :
  (cache_issues repo issues db).1 = true →
  insert_issues repo issues (sql_delete repo db) = Some (cache_issues repo issues db).2.
Proof.
  unfold cache_issues.
  by destruct (insert_issues repo issues (sql_delete repo db)).
Qed.

Lemma cache_issues_failed repo issues db :
  (cache_issues repo issues db).1 = false → (cache_issues repo issues db).2 = db.
Proof.
  unfold cache_issues.
  by destruct (insert_issues repo issues (sql_delete repo db)).
Qed.

(** [replace] succeeds exactly when the identifiers passed are pairwise
    distinct and none of them is the key of a row of another repository. *)
Lemma cache_issues_succeeds_iff repo issues db :
  (cache_issues repo issues db).1 = true ↔
  NoDup (issue.id <$> issues) ∧
  ∀ i r, i ∈ issues → db !! issue.id i = Some r → row.repo r = repo.
Proof.
  transitivity (is_Some (insert_issues repo issues (sql_delete repo db))).
  - unfold cache_issues.
    destruct (insert_issues repo issues (sql_delete repo db)); simpl.
    + split; eauto.
    + split; [done|]. by intros [? ?].
  - rewrite insert_issues_is_Some. apply and_iff_compat_l. split.
    + intros Hall i r Hin Hr. specialize (Hall i Hin).
      destruct (decide (row.repo r = repo)) as [|Hne]; [done|].
      assert (sql_delete repo db !! issue.id i = Some r) as Hs
        by by apply sql_delete_lookup.
      by rewrite Hall in Hs.
    + intros Hall i Hin. apply eq_None_not_Some. intros [r Hr].
      apply sql_delete_lookup in Hr as [Hr Hne]. eauto.
Qed.

(** The rows of the key after a successful [replace]. *)
Lemma cache_issues_rows repo issues db :
  (cache_issues repo issues db).1 = true →
  (map_to_list (where_repo repo (cache_issues repo issues db).2)).*2
    ≡ₚ row_of_issue repo <$> issues.
Proof.
  intros Hok%cache_issues_ok. rewrite (insert_issues_rows _ _ _ _ Hok).
  rewrite where_repo_sql_delete, map_to_list_empty. simpl.
  by rewrite app_nil_r.
Qed.

Lemma select_rows_perm repo db :
  select_rows repo db ≡ₚ (map_to_list (where_repo repo db)).*2.
Proof. unfold select_rows. apply merge_sort_Permutation. Qed.

Lemma row_order_created_desc r1 r2 : row_order r1 r2 → created_desc r1 r2.
Proof.
  unfold row_order, created_desc. case_decide as E; [|done].
  intros _. by rewrite E.
Qed.

Lemma Sorted_row_order (rows : list row.t) :
  Sorted row_order rows → Sorted created_desc rows.
Proof.
  induction 1 as [|r rows Hs IH Hhd]; constructor; [done|].
  destruct Hhd; constructor. by apply row_order_created_desc.
Qed.

Lemma select_rows_sorted repo db : Sorted created_desc (select_rows repo db).
Proof.
  unfold select_rows. apply Sorted_row_order, (Sorted_merge_sort _).
Qed.

Lemma select_rows_nil repo db : select_rows repo db = [] ↔ where_repo repo db = ∅.
Proof.
  rewrite <- map_to_list_empty_iff. split.
  - intros H. pose proof (select_rows_perm repo db) as Hp. rewrite H in Hp.
    apply Permutation_nil in Hp. by apply fmap_nil_inv in Hp.
  - intros H. apply Permutation_nil. rewrite select_rows_perm. by rewrite H.
Qed.

(** [read]: nothing when the table has no row of the key, the rows of the
    key, newest first, when it has some. *)
Lemma get_cached_issues_None repo db :
  get_cached_issues repo db = None ↔ where_repo repo db = ∅.
Proof.
  rewrite <- select_rows_nil. unfold get_cached_issues.
  by destruct (select_rows repo db).
Qed.

Lemma get_cached_issues_Some repo db rows :
  get_cached_issues repo db = Some rows →
  rows = select_rows repo db ∧ rows ≠ [].
Proof.
  unfold get_cached_issues. destruct (select_rows repo db); naive_solver.
Qed.

Lemma repo_exists_in_cache_true repo db :
  repo_exists_in_cache repo db = true ↔ where_repo repo db ≠ ∅.
Proof.
  unfold repo_exists_in_cache. rewrite bool_decide_eq_true.
  rewrite <- map_size_non_empty_iff. lia.
Qed.

Lemma repo_exists_in_cache_false repo db :
  repo_exists_in_cache repo db = false ↔ where_repo repo db = ∅.
Proof.
  rewrite <- not_true_iff_false, repo_exists_in_cache_true.
  destruct (decide (where_repo repo db = ∅)); naive_solver.
Qed.
End database_facts.

(** [exists] is false for a key that no scan has touched. *)
Lemma repo_exists_untouched repo : repo_exists_in_cache repo ∅ = false.
Proof. apply repo_exists_in_cache_false. apply map_filter_empty. Qed.

(** [exists] is true after a successful [replace] with at least one issue. *)
Lemma repo_exists_after_replace repo issues db :
  issues ≠ [] → (cache_issues repo issues db).1 = true →
  repo_exists_in_cache repo (cache_issues repo issues db).2 = true.
Proof.
  intros Hne Hok. apply repo_exists_in_cache_true. intros Hempty.
  pose proof (cache_issues_rows _ _ _ Hok) as Hp.
  rewrite Hempty, map_to_list_empty in Hp. simpl in Hp.
  apply Permutation_nil in Hp. apply fmap_nil_inv in Hp. done.
Qed.

(** A [replace] with an empty list succeeds and leaves no row of the key. *)
Lemma cache_issues_nil repo db :
  (cache_issues repo [] db).1 = true ∧
  where_repo repo (cache_issues repo [] db).2 = ∅.
Proof. split; [done|]. simpl. apply where_repo_sql_delete. Qed.

(** C1.  The claim: [exists] is false before any scan and true after any
    successful [replace], a [replace] with an empty issue list included.
    The code: [replace] with the empty list succeeds for every key and in
    every state of the cache, and [exists] is false right after it. *)
Theorem exists_false_after_empty_replace (repo : string) (db : Table) :
  (cache_issues repo [] db).1 = true ∧
  repo_exists_in_cache repo (cache_issues repo [] db).2 = false.
Proof.
  destruct (cache_issues_nil repo db) as [Hok Hempty]. split; [done|].
  by apply repo_exists_in_cache_false.
Qed.

(** [read] never returns an empty list: the branch of [analyze_repo] for
    [len(issues) == 0] cannot be taken. *)
Lemma get_cached_issues_not_empty repo db : get_cached_issues repo db ≠ Some [].
Proof. intros H. by apply get_cached_issues_Some in H as [_ ?]. Qed.

(** What [read] returns is the rows of the key, newest first. *)
Lemma get_cached_issues_ordered repo db rows :
  get_cached_issues repo db = Some rows →
  rows ≡ₚ (map_to_list (where_repo repo db)).*2 ∧ Sorted created_desc rows.
Proof.
  intros [-> _]%get_cached_issues_Some.
  split; [apply select_rows_perm|apply select_rows_sorted].
Qed.

(** C2.  The claim: [read] returns nothing exactly for a repository that
    was never scanned, and an empty list for a zero-issue snapshot.  The
    code: after a successful [replace] with the empty list, for every key
    and in every state of the cache, [read] returns [None]. *)
Theorem read_none_after_empty_replace (repo : string) (db : Table) :
  (cache_issues repo [] db).1 = true ∧
  get_cached_issues repo (cache_issues repo [] db).2 = None.
Proof.
  destruct (cache_issues_nil repo db) as [Hok Hempty]. split; [done|].
  by apply get_cached_issues_None.
Qed.

(** C4, as stated, fails.  The repository [x/y] holds the issue 7; a
    [replace] for [a/b] that passes an issue with the identifier 7 runs
    into the primary key, nothing is committed, and [read] finds no row of
    [a/b].  A [replace] with the empty list is followed by a [read] that
    returns [None], not the empty list. *)
Lemma replace_then_read_fails :
  ¬ replace_then_read "a/b" [sample_issue 7] other_repo_db ∧
  ¬ replace_then_read "a/b" [] ∅.
Proof.
  split; intros (rows & Hread & _); vm_compute in Hread; discriminate.
Qed.

(** C4, amended.  For every key and every non-empty list of issues for
    which [replace] returns [True], [read] right after it returns the rows
    of exactly the issues passed (a missing body stored as the empty
    string), ordered by creation timestamp, descending. *)
Theorem replace_then_read_nonempty (repo : string) (issues : list issue.t)
    (db : Table) :
  issues ≠ [] → (cache_issues repo issues db).1 = true →
  replace_then_read repo issues db.
Proof.
  intros Hne Hok. exists (select_rows repo (cache_issues repo issues db).2).
  split_and!.
  - unfold get_cached_issues.
    destruct (select_rows repo (cache_issues repo issues db).2) eqn:E; [|done].
    apply select_rows_nil in E.
    pose proof (repo_exists_after_replace _ _ _ Hne Hok) as Hex.
    by apply repo_exists_in_cache_true in Hex.
  - rewrite select_rows_perm. by apply (cache_issues_rows repo issues db).
  - apply select_rows_sorted.
Qed.

Lemma replace_then_read_nonempty_witness :
  replace_then_read "a/b" [sample_issue 1; sample_issue 3; sample_issue 2]
    other_repo_db.
Proof.
  apply replace_then_read_nonempty; [discriminate|vm_compute; reflexivity].
Defined.

(** C10.  A [replace] for the key [r1] leaves every stored row of another
    key [r2] as it is: a row of [r2] is in the table after the [replace]
    exactly when it was there before, under the same primary key. *)
Theorem cache_issues_frame (r1 r2 : string) (issues : list issue.t)
    (db : Table) :
  r1 ≠ r2 →
  ∀ (k : Z) (r : row.t), row.repo r = r2 →
    (cache_issues r1 issues db).2 !! k = Some r ↔ db !! k = Some r.
Proof.
  intros Hne k r Hr.
  destruct (cache_issues r1 issues db).1 eqn:Hok.
  - apply cache_issues_ok in Hok.
    pose proof (insert_issues_frame _ _ _ _ _ Hne Hok) as Hframe.
    rewrite where_repo_sql_delete_ne in Hframe by done.
    pose proof (where_repo_lookup r2 (cache_issues r1 issues db).2 k r) as H1.
    pose proof (where_repo_lookup r2 db k r) as H2.
    rewrite Hframe in H1. tauto.
  - by rewrite cache_issues_failed.
Qed.

Lemma cache_issues_frame_witness :
  (cache_issues "a/b" [sample_issue 1; sample_issue 2] other_repo_db).2 !! 7
    = Some (row_of_issue "x/y" (sample_issue 7))
  ↔ other_repo_db !! 7 = Some (row_of_issue "x/y" (sample_issue 7)).
Proof.
  apply (cache_issues_frame "a/b" "x/y"); [discriminate|reflexivity].
Defined.

(** ** The existence gate *)

(** [analyze] for a key without rows is turned away at the gate: no read
    and no request to the text-generation service. *)
Lemma analyze_repo_gate {B} (client : option (@Client B))
    (request_repo request_prompt : string) (db : Table) (b : B) :
  validate_repo_format (strip request_repo) = true →
  strip request_prompt ≠ "" →
  where_repo (strip request_repo) db = ∅ →
  analyze_repo client request_repo request_prompt db b =
    (HTTPException 400 "Repository not yet scanned"
       ("Please scan the repository '" +:+ strip request_repo +:+
        "' first using the /scan endpoint"), b, []).
Proof.
  intros Hvalid Hprompt Hempty. unfold analyze_repo.
  rewrite Hvalid. simpl. rewrite decide_False by done.
  apply repo_exists_in_cache_false in Hempty. by rewrite Hempty.
Qed.

(** C3.  The claim: after a scan that stored zero issues, [analyze] passes
    the gate and answers with the fixed message for a repository without
    open issues.  The code: the scan of a repository without open issues
    succeeds with [issues_fetched = 0] and [cached_successfully = True], and
    the [analyze] that follows is rejected at the gate with the error
    "Repository not yet scanned", whatever the cache held before and
    whatever the text-generation service. *)
Theorem analyze_after_zero_issue_scan {B} (client : option (@Client B))
    (b : B) (db : Table) :
  let db' := (cache_issues "a/b" [] db).2 in
  scan_repo None no_issues_remote 1 "a/b" db =
    Some (Responds (ScanResponse.mk "a/b" 0 true), db', [1%nat]) ∧
  analyze_repo client "a/b" "Which issues should be fixed first?" db' b =
    (HTTPException 400 "Repository not yet scanned"
       "Please scan the repository 'a/b' first using the /scan endpoint",
     b, []).
Proof.
  split; [reflexivity|].
  apply (analyze_repo_gate client "a/b" "Which issues should be fixed first?").
  - reflexivity.
  - discriminate.
  - apply cache_issues_nil.
Qed.

(** ** The issue source *)

Section issue_source.
Variable github_token : option string.
Variable remote : nat → http.outcome.
Variable repo : string.

Lemma fetch_pages_short fuel page issues :
  is_short_page (remote page) = true →
  fetch_pages github_token remote repo (S fuel) page issues =
    Some (fetched.mk true
            (issues ++ filter not_pull_request (page_records (remote page)))
            None, [page]).
Proof.
  intros Hshort. simpl. destruct (remote page) as [r| |]; try done.
  simpl in *. apply andb_prop in Hshort as [Hs%bool_decide_eq_true Hl%bool_decide_eq_true].
  rewrite !decide_False by lia.
  destruct (http.json r) as [|i l] eqn:E.
  - by rewrite filter_nil, app_nil_r.
  - by rewrite decide_True.
Qed.

Lemma fetch_pages_full fuel page issues :
  is_full_page (remote page) = true →
  fetch_pages github_token remote repo (S fuel) page issues =
    match
      fetch_pages github_token remote repo fuel (page + 1)
        (issues ++ filter not_pull_request (page_records (remote page)))
    with
    | Some (result, pages) => Some (result, page :: pages)
    | None => None
    end.
Proof.
  intros Hfull. simpl. destruct (remote page) as [r| |]; try done.
  simpl in *. apply andb_prop in Hfull as [Hs%bool_decide_eq_true Hl%bool_decide_eq_true].
  rewrite !decide_False by lia.
  destruct (http.json r) as [|i l] eqn:E.
  - simpl in Hl. unfold per_page in Hl. lia.
  - done.
Qed.

(** The loop entered at [first] with [n] full pages ahead and a short
    page after them. *)
Lemma fetch_pages_run n : ∀ fuel first issues,
  (∀ p, first ≤ p < first + n → is_full_page (remote p) = true)%nat →
  is_short_page (remote (first + n)) = true →
  (n < fuel)%nat →
  fetch_pages github_token remote repo fuel first issues =
    Some (fetched.mk true (issues ++ issues_of_pages remote first (S n)) None,
          seq first (S n)).
Proof.
  induction n as [|n IH]; intros fuel first issues Hfull Hshort Hfuel;
    destruct fuel as [|fuel]; try lia.
  - rewrite Nat.add_0_r in Hshort. rewrite fetch_pages_short by done.
    unfold issues_of_pages. simpl. by rewrite app_nil_r.
  - rewrite fetch_pages_full by (apply Hfull; lia).
    rewrite Nat.add_1_r.
    rewrite (IH fuel (S first)).
    + unfold issues_of_pages. simpl. by rewrite <- app_assoc.
    + intros p Hp. apply Hfull. lia.
    + by replace (S first + n)%nat with (first + S n)%nat by lia.
    + lia.
Qed.

(** Whatever the tracker does, the issues collected are free of pull
    requests, when they were so at the entry of the loop. *)
Lemma fetch_pages_no_pull_request fuel : ∀ page issues result pages,
  fetch_pages github_token remote repo fuel page issues = Some (result, pages) →
  Forall not_pull_request issues →
  Forall not_pull_request (fetched.issues result).
Proof.
  induction fuel as [|fuel IH]; intros page issues result pages Hrun Hacc;
    simpl in Hrun; [done|].
  destruct (remote page) as [r| |]; simplify_eq/=; try by constructor.
  destruct (http.json r) as [|i l] eqn:E;
    repeat case_decide; simplify_eq/=; try done; try by constructor.
  - apply Forall_app. split; [done|]. apply Forall_forall.
    by intros x [? _]%list_elem_of_filter.
  - destruct (fetch_pages _ _ _ fuel _ _) as [[result' pages']|] eqn:Hrec;
      simplify_eq/=.
    eapply IH; [done|].
    apply Forall_app. split; [done|]. apply Forall_forall.
    by intros x [? _]%list_elem_of_filter.
Qed.
End issue_source.

(** C6.  When the pages 1, ..., k-1 of the tracker each return at least
    [per_page] = 100 records and page k returns fewer (none, possibly), the
    loop, given the time for k requests, asks for the pages 1, 2, ..., k in
    this order and for no other, and succeeds with the issues of these
    pages, pull requests left out, in the order met.  For three pages of
    100 issues and a fourth of 37 these are 337 issues. *)
Theorem fetch_all_issues_stops_at_short_page (github_token : option string)
    (remote : nat → http.outcome) (repo : string) (k fuel : nat) :
  (1 ≤ k)%nat →
  (∀ p, 1 ≤ p < k → is_full_page (remote p) = true)%nat →
  is_short_page (remote k) = true →
  (k ≤ fuel)%nat →
  fetch_all_issues github_token remote repo fuel =
    Some (fetched.mk true (issues_of_pages remote 1 k) None, seq 1 k).
Proof.
  intros Hk Hfull Hshort Hfuel. destruct k as [|n]; [lia|].
  unfold fetch_all_issues.
  apply (fetch_pages_run github_token remote repo n fuel 1 []).
  - intros p Hp. apply Hfull. lia.
  - exact Hshort.
  - lia.
Qed.

Lemma fetch_all_issues_337_witness :
  let remote := paged_remote sample_issue [100; 100; 100; 37]%nat in
  fetch_all_issues None remote "a/b" 4 =
    Some (fetched.mk true (issues_of_pages remote 1 4) None, [1; 2; 3; 4]%nat) ∧
  length (issues_of_pages remote 1 4) = 337%nat.
Proof.
  split; [|vm_compute; reflexivity].
  apply (fetch_all_issues_stops_at_short_page None _ "a/b" 4 4).
  - lia.
  - intros p Hp. destruct p as [|[|[|[|p]]]]; try lia; reflexivity.
  - reflexivity.
  - lia.
Defined.

(** C8.  Whatever the tracker returns and wherever in its pages, a result
    of [fetch_all_issues] holds no record with the key [pull_request]. *)
Theorem fetch_all_issues_no_pull_request (github_token : option string)
    (remote : nat → http.outcome) (repo : string) (fuel : nat)
    (result : fetched.t) (pages : list nat) :
  fetch_all_issues github_token remote repo fuel = Some (result, pages) →
  Forall not_pull_request (fetched.issues result).
Proof.
  intros Hrun. eapply fetch_pages_no_pull_request; [exact Hrun|constructor].
Qed.

Lemma fetch_all_issues_no_pull_request_witness :
  ∃ result,
    fetch_all_issues None (paged_remote mixed_record [100; 3]%nat) "a/b" 2 =
      Some (result, [1; 2]%nat) ∧
    fetched.success result = true ∧
    length (fetched.issues result) = 51%nat ∧
    Forall not_pull_request (fetched.issues result).
Proof.
  eexists. split; [vm_compute; reflexivity|].
  split; [reflexivity|]. split; [reflexivity|].
  apply (fetch_all_issues_no_pull_request None
           (paged_remote mixed_record [100; 3]%nat) "a/b" 2 _ [1; 2]%nat).
  vm_compute. reflexivity.
Defined.

(** ** The analysis engine *)

Section engine_facts.
Context {B : Type}.
Implicit Types (create : @Client B) (b : B) (req : chat.request).

(** Every attempt sends the same request. *)
Lemma attempt_loop_sent create attempts req b :
  Forall (λ r, r = req) (attempt_loop create attempts req b).2.
Proof.
  revert b. induction attempts as [|attempt rest IH]; intros b; simpl.
  - constructor.
  - destruct (create req b) as [[text|e] b'].
    + simpl. by repeat constructor.
    + case_decide; simpl; [by repeat constructor|].
      specialize (IH b').
      destruct (attempt_loop create rest req b') as [[? ?] sent]. simpl in *.
      by constructor.
Qed.

Lemma attempt_loop_sent_not_nil create attempts req b :
  attempts ≠ [] → (attempt_loop create attempts req b).2 ≠ [].
Proof.
  destruct attempts as [|attempt rest]; [done|]. intros _. simpl.
  destruct (create req b) as [[text|e] b']; [done|].
  case_decide; [done|].
  by destruct (attempt_loop create rest req b') as [[? ?] sent].
Qed.

Lemma analyze_issues_sent (client : option (@Client B)) issues prompt b :
  Forall (λ r, r = completion_request prompt (limit_issues issues))
    (analyze_issues client issues prompt b).2.
Proof.
  unfold analyze_issues. destruct client as [create|]; [|constructor].
  pose proof (attempt_loop_sent create (seq 0 max_retries)
                (completion_request prompt (limit_issues issues)) b) as H.
  by destruct (attempt_loop _ _ _ _) as [[[]] sent].
Qed.

Lemma analyze_issues_sent_not_nil create issues prompt b :
  (analyze_issues (Some create) issues prompt b).2 ≠ [].
Proof.
  unfold analyze_issues.
  pose proof (attempt_loop_sent_not_nil create (seq 0 max_retries)
                (completion_request prompt (limit_issues issues)) b) as H.
  destruct (attempt_loop _ _ _ _) as [[[]] sent]; by apply H.
Qed.
End engine_facts.

(** C7.  Every request that [analyze_issues] sends carries, after the
    prompt, the blocks of the first 50 issues, in the order of the input
    and numbered from 1, when the input has more than 100 issues, and the
    blocks of all of them when it has 100 or fewer; a configured client
    sends at least one request.  (120 issues: 50 are submitted.) *)
Theorem analyze_issues_size_guard {B} (client : option (@Client B))
    (issues : list idict.t) (user_prompt : string) (b : B) :
  let sent := (analyze_issues client issues user_prompt b).2 in
  ((100 < length issues)%nat →
     Forall (λ req, chat.user req = request_text user_prompt (take 50 issues))
       sent ∧
     length (take 50 issues) = 50%nat) ∧
  ((length issues ≤ 100)%nat →
     Forall (λ req, chat.user req = request_text user_prompt issues) sent) ∧
  (is_Some client → sent ≠ []).
Proof.
  intros sent. pose proof (analyze_issues_sent client issues user_prompt b) as H.
  fold sent in H. unfold limit_issues in H. split_and!.
  - intros Hlen. rewrite decide_True in H by done. split.
    + eapply Forall_impl; [exact H|]. by intros req ->.
    + rewrite length_take. lia.
  - intros Hlen. rewrite decide_False in H by lia.
    eapply Forall_impl; [exact H|]. by intros req ->.
  - intros [create ->]. apply analyze_issues_sent_not_nil.
Qed.

Lemma analyze_issues_size_guard_witness :
  Forall (λ req, chat.user req =
                 request_text "Which issues are duplicates?" (take 50 issues120))
    (analyze_issues (Some scripted) issues120 "Which issues are duplicates?"
       [chat.Content "None."]).2 ∧
  length (take 50 issues120) = 50%nat.
Proof.
  apply (analyze_issues_size_guard (Some scripted) issues120
           "Which issues are duplicates?" [chat.Content "None."]).
  vm_compute. lia.
Defined.

(** Of 120 issues the message holds the block of the 50th, with its title,
    and no block of the 51st. *)
Example request_text_120 :
  let text := request_text "Which issues are duplicates?" (take 50 issues120) in
  contains "Issue #50:" text = true ∧
  contains "Title: Crash on start 50" text = true ∧
  contains "Issue #51:" text = false ∧
  contains "Crash on start 51" text = false.
Proof. vm_compute. done. Qed.

(** C5, as stated, fails: the service fails with a timeout at the first
    attempt and with a refused request at the second; the error returned
    names the second failure, not the first. *)
Lemma first_failure_not_surfaced :
  let out :=
    analyze_issues (Some scripted) [] "Summarise"
      [chat.Raises "Request timed out."; chat.Raises "Rate limit reached."] in
  length out.2 = 2%nat ∧
  out.1.1 = Some (analysis_error "Rate limit reached.") ∧
  out.1.1 ≠ Some (analysis_error "Request timed out.").
Proof. split_and!; [reflexivity|reflexivity|discriminate]. Qed.

(** C5, amended.  When the call to the service fails at both attempts,
    [analyze_issues] sends the same request exactly twice, one attempt
    right after the other, and returns, as a value, the failure dictionary
    whose error is "LLM analysis error: " followed by the failure of the
    second attempt. *)
Theorem analyze_issues_two_failures {B} (create : @Client B)
    (issues : list idict.t) (user_prompt : string) (b b1 b2 : B)
    (e1 e2 : string) :
  let req := completion_request user_prompt (limit_issues issues) in
  create req b = (chat.Raises e1, b1) →
  create req b1 = (chat.Raises e2, b2) →
  analyze_issues (Some create) issues user_prompt b =
    (Some (analysis_error e2), b2, [req; req]).
Proof.
  intros req H1 H2. unfold analyze_issues. fold req. simpl.
  rewrite H1. simpl. rewrite H2. reflexivity.
Qed.

Lemma analyze_issues_two_failures_witness :
  let issues := [idict_of_row (row_of_issue "a/b" (sample_issue 1))] in
  let req := completion_request "Summarise" (limit_issues issues) in
  analyze_issues (Some scripted) issues "Summarise"
    [chat.Raises "Request timed out."; chat.Raises "Rate limit reached."] =
    (Some (analysis_error "Rate limit reached."), [], [req; req]).
Proof.
  intros issues req.
  apply (analyze_issues_two_failures scripted issues "Summarise"
           _ [chat.Raises "Rate limit reached."] [] "Request timed out.");
    reflexivity.
Defined.

(** ** The formatting of an issue *)

(** [take_str n s] is the first [n] characters of [s]. *)
Lemma take_str_length (n : nat) (s : string) :
  (n ≤ String.length s)%nat → String.length (take_str n s) = n.
Proof.
  unfold take_str. revert s. induction n as [|n IH]; intros s Hn.
  - by destruct s.
  - destruct s as [|c s]; simpl in *; [lia|]. rewrite IH; [done|lia].
Qed.

Lemma take_str_prefix (n : nat) (s : string) :
  ∃ rest, s = take_str n s +:+ rest.
Proof.
  unfold take_str. revert s. induction n as [|n IH]; intros s.
  - exists s. by destruct s.
  - destruct s as [|c s]; [by exists ""|].
    destruct (IH s) as [rest Hrest]. exists rest. simpl.
    change (String c s = String c (String.substring 0 n s +:+ rest)).
    by rewrite <- Hrest.
Qed.

Lemma truncate_body_long (body : string) :
  (500 < String.length body)%nat →
  description (truncate_body body) = take_str 500 body +:+ "...".
Proof.
  intros Hlen. unfold truncate_body.
  assert (body ≠ "") as Hne by (intros ->; simpl in Hlen; lia).
  rewrite decide_True by done. unfold description.
  destruct body as [|c body]; [done|].
  by rewrite decide_False.
Qed.

Lemma truncate_body_short (body : string) :
  (String.length body ≤ 500)%nat → truncate_body body = body.
Proof. intros Hlen. unfold truncate_body. rewrite decide_False; [done|lia]. Qed.

(** C9, as stated, fails: the empty body has fewer than 500 characters and
    is not rendered unchanged; the text "No description provided" takes
    its place. *)
Lemma empty_body_not_rendered_unchanged :
  let issue :=
    idict.mk (Some "Crash") (Some "") (Some "2024-01-11T00:00:00Z")
      (Some "https://github.com/a/b/issues/1") in
  (String.length "" ≤ 500)%nat ∧
  format_issue 1 issue ≠
    issue_text 1 "Crash" "2024-01-11T00:00:00Z"
      "https://github.com/a/b/issues/1" "" ∧
  format_issue 1 issue =
    issue_text 1 "Crash" "2024-01-11T00:00:00Z"
      "https://github.com/a/b/issues/1" "No description provided".
Proof.
  split_and!; [simpl; lia| |reflexivity].
  vm_compute. discriminate.
Qed.

(** C9, amended.  In the block of an issue, a body longer than 500
    characters is rendered as its first 500 characters followed by "...",
    and a body that is not empty and has at most 500 characters is rendered
    unchanged. *)
Theorem format_issue_body (idx : nat) (issue : idict.t) (body : string) :
  idict.body issue = Some body →
  let title := default "No title" (idict.title issue) in
  let created_at := default "Unknown date" (idict.created_at issue) in
  let url := default "" (idict.html_url issue) in
  ((500 < String.length body)%nat →
     format_issue idx issue =
       issue_text idx title created_at url (take_str 500 body +:+ "...") ∧
     String.length (take_str 500 body) = 500%nat ∧
     ∃ rest, body = take_str 500 body +:+ rest) ∧
  (body ≠ "" → (String.length body ≤ 500)%nat →
     format_issue idx issue = issue_text idx title created_at url body).
Proof.
  intros Hbody title created_at url. unfold format_issue. rewrite Hbody. simpl.
  split.
  - intros Hlen. rewrite truncate_body_long by done. split_and!.
    + done.
    + apply take_str_length. lia.
    + apply take_str_prefix.
  - intros Hne Hlen. rewrite truncate_body_short by done.
    unfold description. by rewrite decide_False.
Qed.

Lemma format_issue_body_witness :
  let issue :=
    idict.mk (Some "Crash") (Some body600) (Some "2024-01-11T00:00:00Z")
      (Some "https://github.com/a/b/issues/1") in
  format_issue 1 issue =
    issue_text 1 "Crash" "2024-01-11T00:00:00Z"
      "https://github.com/a/b/issues/1" (take_str 500 body600 +:+ "...") ∧
  String.length (take_str 500 body600) = 500%nat ∧
  ∃ rest, body600 = take_str 500 body600 +:+ rest.
Proof.
  intros issue.
  apply (format_issue_body 1 issue body600); [reflexivity|].
  vm_compute. lia.
Defined.

(** A body of exactly 500 characters is rendered unchanged. *)
Example format_issue_500 :
  let body := String.concat "" (replicate 500 "y") in
  format_issue 3 (idict.mk (Some "T") (Some body) (Some "D") (Some "U")) =
    issue_text 3 "T" "D" "U" body.
Proof. vm_compute. reflexivity. Qed.

(** * Further properties of the code *)

(** ** The cache: success, failure and overwriting *)

Section replace_facts.
Implicit Types (db : Table) (repo : string) (issues : list issue.t).

Lemma sql_delete_insert repo db r :
  db !! row.id r = None → row.repo r = repo →
  sql_delete repo (<[row.id r := r]> db) = sql_delete repo db.
Proof.
  intros Hfree Hr. unfold sql_delete.
  apply map_filter_insert_not'; simpl; [tauto|].
  intros y Hy. by rewrite Hfree in Hy.
Qed.

Lemma sql_delete_idemp repo db :
  sql_delete repo (sql_delete repo db) = sql_delete repo db.
Proof.
  apply map_eq. intros k. apply option_eq. intros r.
  rewrite !sql_delete_lookup. tauto.
Qed.

(** The INSERT loop writes rows of the key only: what the table holds for
    the other keys is what it held. *)
Lemma insert_issues_sql_delete repo issues db db' :
  insert_issues repo issues db = Some db' →
  sql_delete repo db' = sql_delete repo db.
Proof.
  revert db. induction issues as [|i issues IH]; intros db Hins; simpl in *.
  - by simplify_eq.
  - destruct (sql_insert (row_of_issue repo i) db) as [db1|] eqn:E; [|done].
    apply sql_insert_Some in E as [Hfree ->].
    rewrite (IH _ Hins). by apply sql_delete_insert.
Qed.

(** The INSERT loop keeps every row that is in the table. *)
Lemma insert_issues_keeps repo issues db db' k r :
  insert_issues repo issues db = Some db' →
  db !! k = Some r → db' !! k = Some r.
Proof.
  revert db. induction issues as [|i issues IH]; intros db Hins Hk; simpl in *.
  - by simplify_eq.
  - destruct (sql_insert (row_of_issue repo i) db) as [db1|] eqn:E; [|done].
    apply sql_insert_Some in E as [Hfree ->].
    apply (IH _ Hins). rewrite lookup_insert_ne; [done|].
    intros <-. by rewrite Hfree in Hk.
Qed.

(** After the INSERT loop every issue passed is in the table, under its
    identifier, as a row of the key. *)
Lemma insert_issues_lookup repo issues db db' i :
  insert_issues repo issues db = Some db' → i ∈ issues →
  ∃ r, db' !! issue.id i = Some r ∧ row.repo r = repo.
Proof.
  revert db. induction issues as [|j issues IH]; intros db Hins Hin; simpl in *.
  - by apply elem_of_nil in Hin.
  - destruct (sql_insert (row_of_issue repo j) db) as [db1|] eqn:E; [|done].
    apply sql_insert_Some in E as [Hfree ->].
    apply elem_of_cons in Hin as [->|Hin]; [|by eapply IH].
    exists (row_of_issue repo j). split; [|done].
    apply (insert_issues_keeps _ _ _ _ _ _ Hins).
    apply (lookup_insert_eq db (row.id (row_of_issue repo j))).
Qed.
End replace_facts.

(** X1.  When [cache_issues] returns [True], the identifiers passed are
    pairwise distinct and none of them is the key of a row that the table
    held for another repository. *)
Theorem cache_issues_success_condition (repo : string)
    (issues : list issue.t) (db : Table) :
  (cache_issues repo issues db).1 = true →
  NoDup (issue.id <$> issues) ∧
  ∀ i r, i ∈ issues → db !! issue.id i = Some r → row.repo r = repo.
Proof. apply cache_issues_succeeds_iff. Qed.

Lemma cache_issues_success_condition_witness :
  NoDup (issue.id <$> [sample_issue 1; sample_issue 3; sample_issue 2]) ∧
  ∀ i r, i ∈ [sample_issue 1; sample_issue 3; sample_issue 2] →
         two_repo_db !! issue.id i = Some r → row.repo r = "a/b".
Proof.
  apply (cache_issues_success_condition "a/b"
           [sample_issue 1; sample_issue 3; sample_issue 2] two_repo_db).
  vm_compute. reflexivity.
Defined.

(** X2.  A [replace] that passes one identifier twice returns [False] and
    leaves the table, the previous snapshot of the key included, as it
    was. *)
Theorem cache_issues_duplicate_fails (repo : string) (issues : list issue.t)
    (db : Table) :
  ¬ NoDup (issue.id <$> issues) → cache_issues repo issues db = (false, db).
Proof.
  intros Hdup. destruct (cache_issues repo issues db).1 eqn:Hok.
  - apply cache_issues_succeeds_iff in Hok as [? _]. done.
  - pose proof (cache_issues_failed _ _ _ Hok) as Hdb.
    destruct (cache_issues repo issues db) as [ok db']. simpl in *. congruence.
Qed.

Lemma cache_issues_duplicate_fails_witness :
  cache_issues "a/b" [sample_issue 4; sample_issue 5; sample_issue 4] two_repo_db
    = (false, two_repo_db).
Proof.
  apply cache_issues_duplicate_fails.
  intros Hnd. apply NoDup_cons in Hnd as [Hnotin _]. apply Hnotin.
  vm_compute. right. left.
Defined.

(** The table after the INSERT loop: the rows it held and the rows of the
    issues passed, each under its identifier. *)
Lemma insert_issues_table repo issues : ∀ db db' k r,
  insert_issues repo issues db = Some db' →
  db' !! k = Some r ↔
  db !! k = Some r ∨
  ∃ i, i ∈ issues ∧ k = issue.id i ∧ r = row_of_issue repo i.
Proof.
  induction issues as [|i issues IH]; intros db db' k r Hins; simpl in *.
  - simplify_eq. split; [by left|]. intros [?|(i & Hi & _)]; [done|].
    by apply elem_of_nil in Hi.
  - destruct (sql_insert (row_of_issue repo i) db) as [db1|] eqn:E; [|done].
    apply sql_insert_Some in E as [Hfree ->]. simpl in Hfree.
    rewrite (IH _ _ k r Hins), lookup_insert_Some. simpl. split.
    + intros [[[<- <-]|[_ Hk]]|(j & Hj & -> & ->)].
      * right. exists i. split; [left|done].
      * by left.
      * right. exists j. split; [by right|done].
    + intros [Hk|(j & Hj & -> & ->)].
      * left. right. split; [|done]. intros <-. congruence.
      * apply elem_of_cons in Hj as [->|Hj]; [left; by left|].
        right. eauto.
Qed.

(** The table after a successful [replace]: the rows of the other keys,
    and the rows of the issues passed. *)
Lemma cache_issues_table repo issues db k r :
  (cache_issues repo issues db).1 = true →
  (cache_issues repo issues db).2 !! k = Some r ↔
  (db !! k = Some r ∧ row.repo r ≠ repo) ∨
  ∃ i, i ∈ issues ∧ k = issue.id i ∧ r = row_of_issue repo i.
Proof.
  intros Hok%cache_issues_ok.
  by rewrite (insert_issues_table _ _ _ _ k r Hok), sql_delete_lookup.
Qed.

(** X3.  The last writer wins: after two successful [replace]s of one key,
    one after the other, the table holds the rows that the other keys had
    before the first, and for the key the rows of the issues of the second
    list and nothing of the first. *)
Theorem cache_issues_overwrites (repo : string) (first second : list issue.t)
    (db : Table) :
  (cache_issues repo first db).1 = true →
  (cache_issues repo second (cache_issues repo first db).2).1 = true →
  ∀ k r,
    (cache_issues repo second (cache_issues repo first db).2).2 !! k = Some r ↔
    (db !! k = Some r ∧ row.repo r ≠ repo) ∨
    ∃ i, i ∈ second ∧ k = issue.id i ∧
         r = {| row.id := issue.id i;
                row.repo := repo;
                row.title := issue.title i;
                row.body := default "" (issue.body i);
                row.html_url := issue.html_url i;
                row.created_at := issue.created_at i |}.
Proof.
  intros Hfirst Hsecond k r.
  rewrite (cache_issues_table _ _ _ k r Hsecond).
  rewrite (cache_issues_table _ _ _ k r Hfirst).
  split.
  - intros [[[Hk|(i & _ & _ & ->)] Hne]|H]; [by left|done|by right].
  - intros [[Hk Hne]|H]; [left|by right]. split; [by left|done].
Qed.

Lemma cache_issues_overwrites_witness :
  (cache_issues "a/b" [sample_issue 4]
     (cache_issues "a/b" [sample_issue 1; sample_issue 2] other_repo_db).2).2
    !! 1 = Some (row_of_issue "a/b" (sample_issue 1)) ↔
  (other_repo_db !! 1 = Some (row_of_issue "a/b" (sample_issue 1)) ∧
   row.repo (row_of_issue "a/b" (sample_issue 1)) ≠ "a/b") ∨
  ∃ i, i ∈ [sample_issue 4] ∧ 1 = issue.id i ∧
       row_of_issue "a/b" (sample_issue 1) =
         {| row.id := issue.id i;
            row.repo := "a/b";
            row.title := issue.title i;
            row.body := default "" (issue.body i);
            row.html_url := issue.html_url i;
            row.created_at := issue.created_at i |}.
Proof.
  apply (cache_issues_overwrites "a/b" [sample_issue 1; sample_issue 2]
           [sample_issue 4] other_repo_db); vm_compute; reflexivity.
Defined.

(** X4.  A successful [replace] run a second time with the same issues
    succeeds again and changes nothing. *)
Theorem cache_issues_idempotent (repo : string) (issues : list issue.t)
    (db : Table) :
  (cache_issues repo issues db).1 = true →
  cache_issues repo issues (cache_issues repo issues db).2 =
    cache_issues repo issues db.
Proof.
  intros Hok. pose proof (cache_issues_ok _ _ _ Hok) as Hins.
  pose proof (insert_issues_sql_delete _ _ _ _ Hins) as Hdel.
  rewrite sql_delete_idemp in Hdel.
  destruct (cache_issues repo issues db) as [ok db1] eqn:Hc. simpl in *.
  subst ok. unfold cache_issues. rewrite Hdel, Hins. reflexivity.
Qed.

Lemma cache_issues_idempotent_witness :
  cache_issues "a/b" [sample_issue 1; sample_issue 2]
    (cache_issues "a/b" [sample_issue 1; sample_issue 2] other_repo_db).2 =
  cache_issues "a/b" [sample_issue 1; sample_issue 2] other_repo_db.
Proof. apply cache_issues_idempotent. vm_compute. reflexivity. Defined.

(** X5.  The issues cached for one key cannot be cached for a second key
    as well: the identifiers are taken, and the second [replace] returns
    [False]. *)
Theorem cache_issues_second_key_fails (r1 r2 : string)
    (issues : list issue.t) (db : Table) :
  r1 ≠ r2 → issues ≠ [] →
  (cache_issues r1 issues db).1 = true →
  (cache_issues r2 issues (cache_issues r1 issues db).2).1 = false.
Proof.
  intros Hne Hnil Hok%cache_issues_ok.
  apply not_true_is_false. intros [_ Hall]%cache_issues_succeeds_iff.
  destruct issues as [|i issues]; [done|].
  destruct (insert_issues_lookup _ _ _ _ i Hok) as (r & Hr & Hrepo); [left|].
  assert (i ∈ i :: issues) as Hin by left.
  specialize (Hall i r Hin Hr). congruence.
Qed.

Lemma cache_issues_second_key_fails_witness :
  (cache_issues "A/B" [sample_issue 1; sample_issue 2]
     (cache_issues "a/b" [sample_issue 1; sample_issue 2] ∅).2).1 = false.
Proof.
  apply cache_issues_second_key_fails;
    [discriminate|discriminate|vm_compute; reflexivity].
Defined.

(** ** The cache: what [read] and [exists] return *)

Lemma key_consistent_insert_issues repo issues : ∀ db db',
  insert_issues repo issues db = Some db' →
  key_consistent db → key_consistent db'.
Proof.
  induction issues as [|i issues IH]; intros db db' Hins Hc; simpl in *.
  - by simplify_eq.
  - destruct (sql_insert (row_of_issue repo i) db) as [db1|] eqn:E; [|done].
    apply sql_insert_Some in E as [Hfree ->].
    apply (IH _ _ Hins). by apply map_Forall_insert_2.
Qed.

Lemma key_consistent_cache_issues repo issues db :
  key_consistent db → key_consistent (cache_issues repo issues db).2.
Proof.
  intros Hc. destruct (cache_issues repo issues db).1 eqn:Hok.
  - apply cache_issues_ok in Hok.
    apply (key_consistent_insert_issues _ _ _ _ Hok).
    intros k r [Hk _]%sql_delete_lookup. by apply Hc in Hk.
  - by rewrite cache_issues_failed.
Qed.

Lemma two_repo_db_key_consistent : key_consistent two_repo_db.
Proof. do 2 apply key_consistent_cache_issues. apply map_Forall_empty. Qed.

(** X6.  [replace] keeps the table indexed by the primary key: when every
    row is stored under its own [id], this is so afterwards, whether the
    [replace] succeeds or fails. *)
Theorem cache_issues_key_consistent (repo : string) (issues : list issue.t)
    (db : Table) :
  key_consistent db → key_consistent (cache_issues repo issues db).2.
Proof. apply key_consistent_cache_issues. Qed.

Lemma cache_issues_key_consistent_witness :
  key_consistent
    (cache_issues "a/b" [sample_issue 1; sample_issue 2] other_repo_db).2.
Proof.
  apply cache_issues_key_consistent.
  apply (cache_issues_key_consistent "x/y" [sample_issue 7] ∅).
  apply map_Forall_empty.
Defined.

(** X7.  On a table indexed by the primary key, the rows that [read]
    returns have pairwise distinct identifiers, and all of them carry the
    key that was asked for. *)
Theorem get_cached_issues_distinct (repo : string) (db : Table)
    (rows : list row.t) :
  key_consistent db →
  get_cached_issues repo db = Some rows →
  NoDup (row.id <$> rows) ∧ Forall (λ r, row.repo r = repo) rows.
Proof.
  intros Hc [-> _]%get_cached_issues_Some. split.
  - rewrite select_rows_perm.
    assert (row.id <$> (map_to_list (where_repo repo db)).*2
            = (map_to_list (where_repo repo db)).*1) as ->.
    { rewrite <- list_fmap_compose. apply list_fmap_ext.
      intros n [k r] Hkr%list_elem_of_lookup_2%elem_of_map_to_list. simpl.
      apply where_repo_lookup in Hkr as [Hkr _]. by apply Hc in Hkr. }
    apply NoDup_fst_map_to_list.
  - apply Forall_forall. intros r. rewrite select_rows_perm.
    intros ([k r'] & -> & Hkr%elem_of_map_to_list)%list_elem_of_fmap. simpl.
    by apply where_repo_lookup in Hkr as [_ ?].
Qed.

Lemma get_cached_issues_distinct_witness :
  ∃ rows,
    get_cached_issues "a/b" two_repo_db = Some rows ∧
    length rows = 3%nat ∧
    NoDup (row.id <$> rows) ∧ Forall (λ r, row.repo r = "a/b") rows.
Proof.
  eexists. split; [vm_compute; reflexivity|]. split; [reflexivity|].
  apply (get_cached_issues_distinct "a/b" two_repo_db).
  - apply two_repo_db_key_consistent.
  - vm_compute. reflexivity.
Defined.

(** X8.  [exists] and [read] agree: [repo_exists_in_cache] is true exactly
    when [get_cached_issues] returns a list. *)
Theorem repo_exists_iff_read (repo : string) (db : Table) :
  repo_exists_in_cache repo db = true ↔ is_Some (get_cached_issues repo db).
Proof.
  rewrite repo_exists_in_cache_true, <- not_eq_None_Some.
  by rewrite get_cached_issues_None.
Qed.

(** X9.  What [read] returns is the rows stored for the key, each once and
    no other, every row at least as new as the rows after it. *)
Theorem get_cached_issues_content (repo : string) (db : Table)
    (rows : list row.t) :
  get_cached_issues repo db = Some rows →
  (∀ r, r ∈ rows ↔ ∃ k, db !! k = Some r ∧ row.repo r = repo) ∧
  length rows = size (where_repo repo db) ∧
  StronglySorted created_desc rows.
Proof.
  intros [-> _]%get_cached_issues_Some. split_and!.
  - intros r. rewrite select_rows_perm, list_elem_of_fmap. split.
    + intros ([k r'] & -> & Hkr%elem_of_map_to_list). simpl.
      apply where_repo_lookup in Hkr. eauto.
    + intros (k & Hk & Hr). exists (k, r). split; [done|].
      apply elem_of_map_to_list. by apply where_repo_lookup.
  - rewrite select_rows_perm, length_fmap. apply length_map_to_list.
  - apply Sorted_StronglySorted; [apply _|apply select_rows_sorted].
Qed.

Lemma get_cached_issues_content_witness :
  ∃ rows,
    get_cached_issues "a/b" two_repo_db = Some rows ∧
    (∀ r, r ∈ rows ↔ ∃ k, two_repo_db !! k = Some r ∧ row.repo r = "a/b") ∧
    length rows = size (where_repo "a/b" two_repo_db) ∧
    StronglySorted created_desc rows.
Proof.
  eexists. split; [vm_compute; reflexivity|].
  apply (get_cached_issues_content "a/b" two_repo_db).
  vm_compute. reflexivity.
Defined.

(** ** The issue source: every run of the loop

    The tracker of the model raises the exceptions of [requests] only; the
    last handler of [fetch_all_issues], for any other exception, is outside
    the model. *)

Section issue_source_runs.
Variable github_token : option string.
Variable remote : nat → http.outcome.
Variable repo : string.

(** The loop on [n] full pages: it goes on with the page after them. *)
Lemma fetch_pages_skip n : ∀ fuel first issues,
  (∀ p, first ≤ p < first + n → is_full_page (remote p) = true)%nat →
  fetch_pages github_token remote repo (n + fuel) first issues =
    match
      fetch_pages github_token remote repo fuel (first + n)
        (issues ++ issues_of_pages remote first n)
    with
    | Some (result, pages) => Some (result, seq first n ++ pages)
    | None => None
    end.
Proof.
  induction n as [|n IH]; intros fuel first issues Hfull.
  - rewrite Nat.add_0_r. unfold issues_of_pages. simpl. rewrite app_nil_r.
    by destruct (fetch_pages _ _ _ fuel first issues) as [[? ?]|].
  - change (S n + fuel)%nat with (S (n + fuel)).
    rewrite fetch_pages_full by (apply Hfull; lia).
    rewrite Nat.add_1_r, (IH fuel (S first)) by (intros p Hp; apply Hfull; lia).
    replace (S first + n)%nat with (first + S n)%nat by lia.
    unfold issues_of_pages. simpl. rewrite <- app_assoc.
    by destruct (fetch_pages _ _ _ fuel _ _) as [[? ?]|].
Qed.

Lemma fetch_pages_shape fuel : ∀ page issues result pages,
  fetch_pages github_token remote repo fuel page issues = Some (result, pages) →
  if fetched.success result then fetched.error result = None
  else fetched.issues result = [] ∧ is_Some (fetched.error result).
Proof.
  induction fuel as [|fuel IH]; intros page issues result pages Hrun;
    simpl in Hrun; [done|].
  destruct (remote page) as [r| |]; simplify_eq/=; eauto.
  destruct (http.json r) as [|i l] eqn:E;
    repeat case_decide; simplify_eq/=; eauto.
  destruct (fetch_pages _ _ _ fuel _ _) as [[result' pages']|] eqn:Hrec;
    simplify_eq/=.
  by eapply IH.
Qed.

Lemma fetch_pages_log fuel : ∀ page issues result pages,
  fetch_pages github_token remote repo fuel page issues = Some (result, pages) →
  pages = seq page (length pages) ∧ (1 ≤ length pages ≤ fuel)%nat.
Proof.
  induction fuel as [|fuel IH]; intros page issues result pages Hrun;
    simpl in Hrun; [done|].
  destruct (remote page) as [r| |]; simplify_eq/=; try (split; [done|lia]).
  destruct (http.json r) as [|i l] eqn:E;
    repeat case_decide; simplify_eq/=; try (split; [done|lia]).
  destruct (fetch_pages _ _ _ fuel _ _) as [[result' pages']|] eqn:Hrec;
    simplify_eq/=.
  apply IH in Hrec as [Hseq Hlen]. rewrite Nat.add_1_r in Hseq.
  split; [by f_equal|lia].
Qed.

Lemma fetch_pages_endless fuel : ∀ page issues,
  (∀ p, page ≤ p → is_full_page (remote p) = true)%nat →
  fetch_pages github_token remote repo fuel page issues = None.
Proof.
  induction fuel as [|fuel IH]; intros page issues Hfull; [done|].
  rewrite fetch_pages_full by (apply Hfull; lia).
  rewrite IH; [done|]. intros p Hp. apply Hfull. lia.
Qed.

Lemma fetch_pages_error fuel page issues :
  is_error_page (remote page) = true →
  ∃ error_msg,
    fetch_pages github_token remote repo (S fuel) page issues =
      Some (fetch_failed error_msg, [page]).
Proof.
  intros Herr. simpl. destruct (remote page) as [r| |]; eauto.
  simpl in Herr. apply bool_decide_eq_true in Herr.
  repeat case_decide; try done; eauto.
Qed.

Lemma fetch_pages_403 fuel page issues r :
  remote page = http.Response r → http.status_code r = 403 →
  fetch_pages github_token remote repo (S fuel) page issues =
    Some (fetch_failed
            (if truthy github_token then "GitHub API rate limit exceeded"
             else "GitHub API rate limit exceeded. Add GITHUB_TOKEN to .env for higher limits"),
          [page]).
Proof.
  intros Hr H403. simpl. rewrite Hr, decide_True by done.
  by destruct (truthy github_token).
Qed.

Lemma fetch_pages_404 fuel page issues r :
  remote page = http.Response r → http.status_code r = 404 →
  fetch_pages github_token remote repo (S fuel) page issues =
    Some (fetch_failed ("Repository '" +:+ repo +:+ "' not found"), [page]).
Proof.
  intros Hr H404. simpl. rewrite Hr, decide_False, decide_True by lia. done.
Qed.
End issue_source_runs.

Lemma seq_1_snoc (k : nat) : (1 ≤ k)%nat → seq 1 (k - 1) ++ [k] = seq 1 k.
Proof.
  intros Hk. destruct k as [|k]; [lia|].
  replace (S k - 1)%nat with k by lia. by rewrite seq_S.
Qed.

(** X10.  The dictionary that [fetch_all_issues] returns is either a
    success without an error, or a failure with an error message and an
    empty list of issues: no partial result comes with a failure. *)
Theorem fetch_all_issues_shape (github_token : option string)
    (remote : nat → http.outcome) (repo : string) (fuel : nat)
    (result : fetched.t) (pages : list nat) :
  fetch_all_issues github_token remote repo fuel = Some (result, pages) →
  (fetched.success result = true → fetched.error result = None) ∧
  (fetched.success result = false →
   fetched.issues result = [] ∧ is_Some (fetched.error result)).
Proof.
  intros Hrun%fetch_pages_shape.
  destruct (fetched.success result); split; done.
Qed.

Lemma fetch_all_issues_shape_witness :
  ∃ result,
    fetch_all_issues None
      (remote_until 3 (http.Response (http.mk 502 [] "Bad Gateway"))) "a/b" 5 =
      Some (result, [1; 2; 3]%nat) ∧
    fetched.success result = false ∧
    fetched.issues result = [] ∧ is_Some (fetched.error result).
Proof.
  eexists. split; [vm_compute; reflexivity|]. split; [reflexivity|].
  apply (fetch_all_issues_shape None
           (remote_until 3 (http.Response (http.mk 502 [] "Bad Gateway")))
           "a/b" 5 _ [1; 2; 3]%nat); [vm_compute|]; reflexivity.
Defined.

(** X11.  Whatever the tracker does, the pages that a run of
    [fetch_all_issues] asks for are 1, 2, ..., n without a gap or a
    repetition, with n at least 1. *)
Theorem fetch_all_issues_pages_consecutive (github_token : option string)
    (remote : nat → http.outcome) (repo : string) (fuel : nat)
    (result : fetched.t) (pages : list nat) :
  fetch_all_issues github_token remote repo fuel = Some (result, pages) →
  pages = seq 1 (length pages) ∧ (1 ≤ length pages ≤ fuel)%nat.
Proof. apply fetch_pages_log. Qed.

Lemma fetch_all_issues_pages_consecutive_witness :
  ∃ result pages,
    fetch_all_issues None (remote_until 3 http.Timeout) "a/b" 5 =
      Some (result, pages) ∧
    pages = seq 1 (length pages) ∧ (1 ≤ length pages ≤ 5)%nat.
Proof.
  eexists _, _. split; [vm_compute; reflexivity|].
  apply (fetch_all_issues_pages_consecutive None
           (remote_until 3 http.Timeout) "a/b" 5
           (fetch_failed "GitHub API request timed out")).
  vm_compute. reflexivity.
Defined.

(** X12.  The loop has no bound of its own on the number of pages: against
    a tracker for which every page is full, no number of requests ends
    it. *)
Theorem fetch_all_issues_endless (github_token : option string)
    (remote : nat → http.outcome) (repo : string) :
  (∀ p, 1 ≤ p → is_full_page (remote p) = true)%nat →
  ∀ fuel, fetch_all_issues github_token remote repo fuel = None.
Proof. intros Hfull fuel. by apply fetch_pages_endless. Qed.

Lemma fetch_all_issues_endless_witness :
  fetch_all_issues None (remote_until 0 http.Timeout) "a/b" 6 = None.
Proof.
  apply fetch_all_issues_endless.
  intros p Hp. unfold remote_until. rewrite decide_False by lia. reflexivity.
Defined.

(** X13.  The first page that does not answer with status 200 ends the run
    with a failure: after the full pages 1, ..., k-1 and such a page k, the
    result is a failure dictionary without issues, the issues of the pages
    before being dropped, and no page after k is asked for. *)
Theorem fetch_all_issues_fails_at_first_error (github_token : option string)
    (remote : nat → http.outcome) (repo : string) (k fuel : nat) :
  (1 ≤ k)%nat →
  (∀ p, 1 ≤ p < k → is_full_page (remote p) = true)%nat →
  is_error_page (remote k) = true →
  (k ≤ fuel)%nat →
  ∃ error_msg,
    fetch_all_issues github_token remote repo fuel =
      Some (fetch_failed error_msg, seq 1 k).
Proof.
  intros Hk Hfull Herr Hfuel. unfold fetch_all_issues.
  replace fuel with ((k - 1) + S (fuel - k))%nat by lia.
  rewrite fetch_pages_skip by (intros p Hp; apply Hfull; lia).
  replace (1 + (k - 1))%nat with k by lia.
  destruct (fetch_pages_error github_token remote repo (fuel - k) k
              ([] ++ issues_of_pages remote 1 (k - 1)) Herr) as [msg ->].
  exists msg. by rewrite seq_1_snoc.
Qed.

Lemma fetch_all_issues_fails_at_first_error_witness :
  ∃ error_msg,
    fetch_all_issues None (remote_until 3 (http.RequestException "Connection reset"))
      "a/b" 4 = Some (fetch_failed error_msg, seq 1 3).
Proof.
  apply fetch_all_issues_fails_at_first_error.
  - lia.
  - intros p Hp. unfold remote_until. rewrite decide_False by lia. reflexivity.
  - reflexivity.
  - lia.
Defined.

(** X14.  A page that answers with status 403 ends the run with the
    rate-limit message; the advice to add a token is part of it exactly
    when no token, or an empty one, is configured. *)
Theorem fetch_all_issues_rate_limited (github_token : option string)
    (remote : nat → http.outcome) (repo : string) (k fuel : nat)
    (r : http.response) :
  (1 ≤ k)%nat →
  (∀ p, 1 ≤ p < k → is_full_page (remote p) = true)%nat →
  remote k = http.Response r → http.status_code r = 403 →
  (k ≤ fuel)%nat →
  fetch_all_issues github_token remote repo fuel =
    Some (fetch_failed
            (if truthy github_token then "GitHub API rate limit exceeded"
             else "GitHub API rate limit exceeded. Add GITHUB_TOKEN to .env for higher limits"),
          seq 1 k).
Proof.
  intros Hk Hfull Hr H403 Hfuel. unfold fetch_all_issues.
  replace fuel with ((k - 1) + S (fuel - k))%nat by lia.
  rewrite fetch_pages_skip by (intros p Hp; apply Hfull; lia).
  replace (1 + (k - 1))%nat with k by lia.
  rewrite (fetch_pages_403 _ _ _ _ _ _ r) by done.
  by rewrite seq_1_snoc.
Qed.

Lemma fetch_all_issues_rate_limited_witness :
  fetch_all_issues (Some "ghp_token")
    (remote_until 2 (http.Response (http.mk 403 [] "rate limit"))) "a/b" 2 =
    Some (fetch_failed "GitHub API rate limit exceeded", [1; 2]%nat).
Proof.
  apply (fetch_all_issues_rate_limited (Some "ghp_token") _ "a/b" 2 2
           (http.mk 403 [] "rate limit")).
  - lia.
  - intros p Hp. unfold remote_until. rewrite decide_False by lia. reflexivity.
  - reflexivity.
  - reflexivity.
  - lia.
Defined.

(** ** Strings: [split] and [strip] *)

Section string_facts.
Implicit Types (s t : string) (c sep : ascii).

Lemma str_app_nil_l s : "" +:+ s = s.
Proof. reflexivity. Qed.

Lemma str_app_cons c s t : String c s +:+ t = String c (s +:+ t).
Proof. reflexivity. Qed.

Lemma str_app_nil_r s : s +:+ "" = s.
Proof. induction s as [|c s IH]; [done|]. by rewrite str_app_cons, IH. Qed.

Lemma str_app_assoc s t u : (s +:+ t) +:+ u = s +:+ t +:+ u.
Proof. induction s as [|c s IH]; [done|]. by rewrite !str_app_cons, IH. Qed.

Lemma str_length_app s t :
  String.length (s +:+ t) = (String.length s + String.length t)%nat.
Proof.
  induction s as [|c s IH]; [done|]. rewrite str_app_cons. simpl.
  by rewrite IH.
Qed.

Lemma rev_app_spec s t : String.rev_app s t = String.rev s +:+ t.
Proof.
  unfold String.rev. revert t. induction s as [|c s IH]; intros t; [done|].
  simpl. rewrite (IH (String c t)), (IH (String c "")).
  by rewrite str_app_assoc.
Qed.

Lemma rev_cons c s : String.rev (String c s) = String.rev s +:+ String c "".
Proof. unfold String.rev at 1. simpl. apply rev_app_spec. Qed.

Lemma rev_app_distr s t : String.rev (s +:+ t) = String.rev t +:+ String.rev s.
Proof.
  induction s as [|c s IH].
  - change (String.rev t = String.rev t +:+ ""). by rewrite str_app_nil_r.
  - by rewrite str_app_cons, !rev_cons, IH, str_app_assoc.
Qed.

Lemma rev_involutive s : String.rev (String.rev s) = s.
Proof.
  induction s as [|c s IH]; [done|].
  by rewrite rev_cons, rev_app_distr, IH.
Qed.

Lemma lstrip_idemp s : lstrip (lstrip s) = lstrip s.
Proof.
  induction s as [|c s IH]; [done|]. simpl.
  destruct (isspace c) eqn:E; [done|]. simpl. by rewrite E.
Qed.

(** What [lstrip] leaves is empty or starts with a character that is not
    white space. *)
Lemma lstrip_starts s :
  lstrip s = "" ∨ ∃ c t, lstrip s = String c t ∧ isspace c = false.
Proof.
  induction s as [|c s IH]; [by left|]. simpl.
  destruct (isspace c) eqn:E; [done|]. right. eauto.
Qed.

Lemma lstrip_app_nonspace c s t :
  isspace c = false → lstrip (s +:+ String c t) = lstrip s +:+ String c t.
Proof.
  intros Hc. induction s as [|c' s IH].
  - rewrite str_app_nil_l. simpl. by rewrite Hc.
  - rewrite str_app_cons. simpl. by destruct (isspace c').
Qed.

(** Stripping at the right end keeps a left end without white space. *)
Lemma lstrip_rstrip s :
  lstrip s = s →
  lstrip (String.rev (lstrip (String.rev s))) = String.rev (lstrip (String.rev s)).
Proof.
  intros Hs. destruct (lstrip_starts s) as [H|(c & t & H & Hc)];
    rewrite Hs in H; subst s; [done|].
  rewrite rev_cons, lstrip_app_nonspace, rev_app_distr by done.
  change (String.rev (String c "")) with (String c "").
  rewrite str_app_cons. simpl. by rewrite Hc.
Qed.

Lemma lstrip_strip s : lstrip (strip s) = strip s.
Proof. apply lstrip_rstrip, lstrip_idemp. Qed.

Lemma strip_strip s : strip (strip s) = strip s.
Proof.
  unfold strip at 1. rewrite lstrip_strip. unfold strip.
  by rewrite rev_involutive, lstrip_idemp.
Qed.

Lemma lower_app s t : lower (s +:+ t) = lower s +:+ lower t.
Proof.
  induction s as [|c s IH]; [done|]. rewrite str_app_cons. simpl.
  by rewrite IH.
Qed.

Lemma contains_app_r needle s t :
  contains needle t = true → contains needle (s +:+ t) = true.
Proof.
  intros Ht. induction s as [|c s IH]; [done|]. rewrite str_app_cons. simpl.
  rewrite IH. apply orb_true_r.
Qed.

Lemma take_str_length_le (n : nat) s : (String.length (take_str n s) ≤ n)%nat.
Proof.
  unfold take_str. revert s. induction n as [|n IH]; intros s.
  - by destruct s.
  - destruct s as [|c s]; simpl; [lia|]. specialize (IH s). lia.
Qed.

Lemma split_not_nil sep s : split sep s ≠ [].
Proof.
  destruct s as [|c s]; [done|]. simpl.
  case_decide; [done|]. by destruct (split sep s).
Qed.

Lemma split_no_sep sep s : occurs sep s = false → split sep s = [s].
Proof.
  induction s as [|c s IH]; [done|]. simpl.
  intros [Hc%bool_decide_eq_false Hs]%orb_false_elim.
  by rewrite decide_False, IH.
Qed.

Lemma split_app sep s t :
  occurs sep s = false →
  split sep (s +:+ String sep t) = s :: split sep t.
Proof.
  induction s as [|c s IH].
  - intros _. rewrite str_app_nil_l. simpl. by rewrite decide_True.
  - simpl. intros [Hc%bool_decide_eq_false Hs]%orb_false_elim.
    by rewrite decide_False, IH.
Qed.

Lemma split_parts sep s : Forall (λ part, occurs sep part = false) (split sep s).
Proof.
  induction s as [|c s IH]; [by repeat constructor|]. simpl.
  case_decide as Hc; [by constructor|].
  destruct (split sep s) as [|part parts].
  - constructor; [|done]. simpl. by rewrite bool_decide_eq_false_2.
  - apply Forall_cons in IH as [Hp Hps]. constructor; [|done].
    simpl. rewrite Hp. by rewrite bool_decide_eq_false_2.
Qed.
End string_facts.

(** [split] and [join] are inverse on what [split] returns: joining the
    parts with the separator gives the string back, and no part holds the
    separator. *)
Lemma split_join (sep : ascii) (s : string) :
  String.concat (String sep "") (split sep s) = s ∧
  Forall (λ part, occurs sep part = false) (split sep s).
Proof.
  split; [|apply split_parts].
  induction s as [|c s IH]; [done|]. simpl.
  pose proof (split_not_nil sep s) as Hne.
  case_decide as Hc.
  - subst c. destruct (split sep s) as [|part parts]; [done|].
    change (String sep (String.concat (String sep "") (part :: parts)) = String sep s).
    by rewrite IH.
  - destruct (split sep s) as [|part parts]; [done|].
    destruct parts as [|part' parts].
    + simpl in *. by rewrite IH.
    + change (String c (String.concat (String sep "") (part :: part' :: parts))
              = String c s).
      by rewrite IH.
Qed.

(** X15.  [validate_repo_format] accepts exactly the strings of the form
    owner, one slash, name, in which neither part holds a slash and
    neither is empty or white space only. *)
Theorem validate_repo_format_spec (repo : string) :
  validate_repo_format repo = true ↔
  ∃ owner name,
    repo = owner +:+ "/" +:+ name ∧
    occurs "/" owner = false ∧ occurs "/" name = false ∧
    strip owner ≠ "" ∧ strip name ≠ "".
Proof.
  unfold validate_repo_format. split.
  - intros [Hlen%bool_decide_eq_true Hall]%andb_prop.
    destruct (split_join "/" repo) as [Hjoin Hparts].
    destruct (split "/" repo) as [|owner [|name [|? ?]]]; try done.
    simpl in Hall.
    apply andb_prop in Hall as [Ho%bool_decide_eq_true Hn%andb_prop].
    destruct Hn as [Hn%bool_decide_eq_true _].
    apply Forall_cons in Hparts as [Hso Hparts].
    apply Forall_cons in Hparts as [Hsn _].
    exists owner, name. by rewrite <- Hjoin.
  - intros (owner & name & -> & Hso & Hsn & Ho & Hn).
    change (owner +:+ "/" +:+ name) with (owner +:+ String "/" name).
    rewrite split_app, split_no_sep by done. simpl.
    by rewrite !bool_decide_eq_true_2.
Qed.

(** [strip] does its work in one pass: what it returns has no white space
    at its left end and none at its right end, and stripping it again
    changes nothing. *)
Lemma strip_idempotent (s : string) :
  lstrip (strip s) = strip s ∧
  lstrip (String.rev (strip s)) = String.rev (strip s) ∧
  strip (strip s) = strip s.
Proof.
  split_and!.
  - apply lstrip_strip.
  - unfold strip. by rewrite rev_involutive, lstrip_idemp.
  - apply strip_strip.
Qed.

(** ** The analysis engine: every run *)

(** X16.  The retry recovers from one failure: when the first call of the
    service fails and the second answers, [analyze_issues] returns the
    answer as a success, after exactly two requests, and the first failure
    is not reported. *)
Theorem analyze_issues_retry_recovers {B} (create : @Client B)
    (issues : list idict.t) (user_prompt : string) (b b1 b2 : B)
    (e1 answer : string) :
  let req := completion_request user_prompt (limit_issues issues) in
  create req b = (chat.Raises e1, b1) →
  create req b1 = (chat.Content answer, b2) →
  analyze_issues (Some create) issues user_prompt b =
    (Some (analysis.mk true answer None), b2, [req; req]).
Proof.
  intros req H1 H2. unfold analyze_issues. fold req. simpl.
  rewrite H1. simpl. rewrite H2. reflexivity.
Qed.

Lemma analyze_issues_retry_recovers_witness :
  let issues := [idict_of_row (row_of_issue "a/b" (sample_issue 1))] in
  let req := completion_request "Summarise" (limit_issues issues) in
  analyze_issues (Some scripted) issues "Summarise"
    [chat.Raises "Request timed out."; chat.Content "One crash report."] =
    (Some (analysis.mk true "One crash report." None), [], [req; req]).
Proof.
  intros issues req.
  apply (analyze_issues_retry_recovers scripted issues "Summarise"
           _ [chat.Content "One crash report."] [] "Request timed out.");
    reflexivity.
Defined.

(** X17.  [analyze_issues] returns a dictionary in every case, never
    Python's [None]: the loop over the attempts is always left by
    [return] or [raise].  It sends no request without a client, and one or
    two with a client.  A success carries no error; a failure carries an
    error and an empty analysis. *)
Theorem analyze_issues_total {B} (client : option (@Client B))
    (issues : list idict.t) (user_prompt : string) (b : B) :
  ∃ result,
    (analyze_issues client issues user_prompt b).1.1 = Some result ∧
    match client with
    | Some _ =>
        (1 ≤ length (analyze_issues client issues user_prompt b).2)%nat ∧
        (length (analyze_issues client issues user_prompt b).2 ≤ 2)%nat
    | None => (analyze_issues client issues user_prompt b).2 = []
    end ∧
    (if analysis.success result then analysis.error result = None
     else analysis.analysis result = "" ∧ is_Some (analysis.error result)).
Proof.
  unfold analyze_issues. destruct client as [create|].
  - simpl. destruct (create _ b) as [[a|e] b1]; simpl.
    + eexists. repeat split; simpl; lia.
    + destruct (create _ b1) as [[a|e'] b2]; simpl.
      * eexists. repeat split; simpl; lia.
      * eexists. repeat split; simpl; try lia. eauto.
  - simpl. eexists. repeat split. simpl. eauto.
Qed.

(** X18.  Whatever the body of an issue, what stands behind
    [Description:] in its block has at most 503 characters. *)
Theorem description_bounded (body : string) :
  (String.length (description (truncate_body body)) ≤ 503)%nat.
Proof.
  unfold truncate_body. case_decide as H.
  - destruct H as [Hne Hlen]. unfold description.
    pose proof (take_str_length_le 500 body) as Hle.
    case_decide as E; [simpl; lia|].
    rewrite str_length_app. simpl. lia.
  - unfold description. case_decide as E; [simpl; lia|].
    apply not_and_l in H as [H|H]; [by apply dec_stable in H|lia].
Qed.

(** ** The handlers *)

(** X19.  [analyze_repo] sends a request to the text-generation service
    only for a well-formed repository key, a prompt that is not blank, a
    key that [exists] admits, and a configured client. *)
Theorem analyze_repo_requests_guarded {B} (client : option (@Client B))
    (request_repo request_prompt : string) (db : Table) (b : B) :
  (analyze_repo client request_repo request_prompt db b).2 ≠ [] →
  validate_repo_format (strip request_repo) = true ∧
  strip request_prompt ≠ "" ∧
  repo_exists_in_cache (strip request_repo) db = true ∧
  is_Some client.
Proof.
  unfold analyze_repo.
  destruct (validate_repo_format (strip request_repo)); simpl; [|done].
  case_decide as Hp; [done|].
  destruct (repo_exists_in_cache (strip request_repo) db); simpl; [|done].
  destruct (get_cached_issues (strip request_repo) db) as [rows|]; [|done].
  case_decide; [done|].
  destruct client as [create|]; [eauto|]. simpl. done.
Qed.

Lemma analyze_repo_requests_guarded_witness :
  validate_repo_format (strip " a/b ") = true ∧
  strip "Which issues are urgent? " ≠ "" ∧
  repo_exists_in_cache (strip " a/b ") two_repo_db = true ∧
  is_Some (Some scripted).
Proof.
  apply (analyze_repo_requests_guarded (Some scripted) " a/b "
           "Which issues are urgent? " two_repo_db [chat.Content "The crash."]).
  vm_compute. discriminate.
Defined.

(** X20.  [analyze_repo] answers only with what the text-generation
    service said: a response is preceded by one or two requests of a
    configured client, and its text is the content that the last of them
    returned. *)
Theorem analyze_repo_responds_from_backend {B} (client : option (@Client B))
    (request_repo request_prompt text : string) (db : Table) (b b' : B)
    (sent : list chat.request) :
  analyze_repo client request_repo request_prompt db b =
    (Responds text, b', sent) →
  (1 ≤ length sent ≤ 2)%nat ∧
  ∃ create req b0,
    client = Some create ∧ last sent = Some req ∧
    create req b0 = (chat.Content text, b').
Proof.
  unfold analyze_repo.
  destruct (validate_repo_format (strip request_repo)); simpl; [|done].
  case_decide as Hp; [done|].
  destruct (repo_exists_in_cache (strip request_repo) db); simpl; [|done].
  destruct (get_cached_issues (strip request_repo) db) as [rows|] eqn:Hread;
    [|done].
  case_decide as Hlen.
  { apply nil_length_inv in Hlen. subst rows.
    by apply get_cached_issues_not_empty in Hread. }
  unfold analyze_issues. destruct client as [create|]; [|done]. simpl.
  destruct (create _ b) as [[a|e] b1] eqn:H1; simpl.
  { intros [= <- <- <-]. split; [simpl; lia|]. eexists create, _, b. eauto. }
  destruct (create _ b1) as [[a|e'] b2] eqn:H2; simpl; [|done].
  intros [= <- <- <-]. split; [simpl; lia|]. eexists create, _, b1. eauto.
Qed.

Lemma analyze_repo_responds_from_backend_witness :
  let sent :=
    [completion_request "Which issue is the newest?"
       (limit_issues (idict_of_row <$> select_rows "a/b" two_repo_db))] in
  analyze_repo (Some scripted) " a/b" "Which issue is the newest?" two_repo_db
    [chat.Content "Issue 3."] = (Responds "Issue 3.", [], sent) ∧
  (1 ≤ length sent ≤ 2)%nat ∧
  ∃ create req b0,
    Some scripted = Some create ∧ last sent = Some req ∧
    create req b0 = (chat.Content "Issue 3.", []).
Proof.
  intros sent.
  assert (analyze_repo (Some scripted) " a/b" "Which issue is the newest?"
            two_repo_db [chat.Content "Issue 3."]
          = (Responds "Issue 3.", [], sent)) as Hrun
    by (vm_compute; reflexivity).
  split; [exact Hrun|].
  exact (analyze_repo_responds_from_backend (Some scripted) " a/b"
           "Which issue is the newest?" "Issue 3." two_repo_db
           [chat.Content "Issue 3."] [] sent Hrun).
Defined.



(** X22.  The handlers see their arguments only after [strip]: white
    space around the repository key or the prompt changes nothing. *)
Theorem handlers_ignore_padding {B} (github_token : option string)
    (remote : nat → http.outcome) (fuel : nat) (client : option (@Client B))
    (request_repo request_prompt : string) (db : Table) (b : B) :
  scan_repo github_token remote fuel (strip request_repo) db =
    scan_repo github_token remote fuel request_repo db ∧
  analyze_repo client (strip request_repo) (strip request_prompt) db b =
    analyze_repo client request_repo request_prompt db b.
Proof.
  unfold scan_repo, analyze_repo. by rewrite !strip_strip.
Qed.

(** X23.  A repository key without a slash is rejected by both handlers
    with the status 400, before any request to the tracker or to the
    text-generation service, and the cache is left as it is. *)
Theorem handlers_reject_key_without_slash {B} (github_token : option string)
    (remote : nat → http.outcome) (fuel : nat) (client : option (@Client B))
    (request_repo request_prompt : string) (db : Table) (b : B) :
  occurs "/" (strip request_repo) = false →
  scan_repo github_token remote fuel request_repo db =
    Some (invalid_repo_format, db, []) ∧
  analyze_repo client request_repo request_prompt db b =
    (invalid_repo_format, b, []).
Proof.
  intros Hno. unfold scan_repo, analyze_repo, validate_repo_format.
  by rewrite split_no_sep.
Qed.

Lemma handlers_reject_key_without_slash_witness :
  scan_repo None no_issues_remote 0 "not-a-repo" two_repo_db =
    Some (invalid_repo_format, two_repo_db, []) ∧
  analyze_repo (Some scripted) "not-a-repo" "Summarise" two_repo_db
    [chat.Content "Nothing."] =
    (invalid_repo_format, [chat.Content "Nothing."], []).
Proof. apply handlers_reject_key_without_slash. reflexivity. Defined.

(** X24.  A scan changes the cache only when it responds: then the number
    of issues it reports is the number of rows that the cache holds for the
    key.  With any other outcome the cache is what it was. *)
Theorem scan_repo_cache (github_token : option string)
    (remote : nat → http.outcome) (fuel : nat) (request_repo : string)
    (db db' : Table) (out : handled ScanResponse.t) (pages : list nat) :
  scan_repo github_token remote fuel request_repo db = Some (out, db', pages) →
  match out with
  | Responds response =>
      ScanResponse.repo response = strip request_repo ∧
      ScanResponse.cached_successfully response = true ∧
      ScanResponse.issues_fetched response =
        size (where_repo (strip request_repo) db')
  | _ => db' = db
  end.
Proof.
  unfold scan_repo.
  destruct (validate_repo_format (strip request_repo)); simpl;
    [|by intros [= <- <- <-]].
  destruct (fetch_all_issues _ _ _ _) as [[result pages']|]; [|done].
  destruct (fetched.success result); simpl; [|by intros [= <- <- <-]].
  destruct (cache_issues (strip request_repo) (fetched.issues result) db)
    as [ok db1] eqn:Hc.
  destruct ok; simpl; intros [= <- <- <-].
  - split_and!; [done|done|]. simpl.
    assert ((cache_issues (strip request_repo) (fetched.issues result) db).1
            = true) as Hok by by rewrite Hc.
    pose proof (cache_issues_rows _ _ _ Hok) as Hrows.
    rewrite Hc in Hrows. simpl in Hrows.
    rewrite <- length_map_to_list.
    rewrite <- (length_fmap snd), Hrows. by rewrite length_fmap.
  - pose proof (cache_issues_failed (strip request_repo)
                  (fetched.issues result) db) as Hf.
    rewrite Hc in Hf. by apply Hf.
Qed.

Lemma scan_repo_cache_witness :
  ∃ db',
    scan_repo None (paged_remote mixed_record [4]%nat) 1 " a/b" other_repo_db =
      Some (Responds (ScanResponse.mk "a/b" 2 true), db', [1%nat]) ∧
    2%nat = size (where_repo (strip " a/b") db').
Proof.
  eexists. split; [vm_compute; reflexivity|].
  apply (scan_repo_cache None (paged_remote mixed_record [4]%nat) 1 " a/b"
           other_repo_db _ (Responds (ScanResponse.mk "a/b" 2 true)) [1%nat]).
  vm_compute. reflexivity.
Defined.

(** X25.  A tracker that answers the first request with the status 404
    makes the scan fail with the status 404 and the message that names the
    repository; the cache is left as it is. *)
Theorem scan_repo_not_found (github_token : option string)
    (remote : nat → http.outcome) (fuel : nat) (request_repo : string)
    (db : Table) (r : http.response) :
  validate_repo_format (strip request_repo) = true →
  remote 1%nat = http.Response r → http.status_code r = 404 →
  scan_repo github_token remote (S fuel) request_repo db =
    Some (HTTPException 404
            ("Repository '" +:+ strip request_repo +:+ "' not found")
            "Failed to fetch issues from GitHub API", db, [1%nat]).
Proof.
  intros Hvalid Hr H404. unfold scan_repo. rewrite Hvalid. simpl negb.
  cbv iota. unfold fetch_all_issues.
  rewrite (fetch_pages_404 _ _ _ _ _ _ r) by done. simpl.
  rewrite str_app_nil_l, lower_app, contains_app_r; done.
Qed.

Lemma scan_repo_not_found_witness :
  scan_repo None (remote_until 1 (http.Response (http.mk 404 [] "Not Found")))
    1 "thisdoesnotexist12345/fakerepo99999" two_repo_db =
    Some (HTTPException 404
            ("Repository '" +:+ strip "thisdoesnotexist12345/fakerepo99999" +:+
             "' not found")
            "Failed to fetch issues from GitHub API", two_repo_db, [1%nat]).
Proof.
  apply (scan_repo_not_found None _ 0 _ two_repo_db
           (http.mk 404 [] "Not Found")); reflexivity.
Defined.

(** X26.  A timeout or the status 403 at the first request makes the scan
    fail with the status 500; the cache is left as it is. *)
Theorem scan_repo_timeout_or_rate_limit (github_token : option string)
    (remote : nat → http.outcome) (fuel : nat) (request_repo : string)
    (db : Table) :
  validate_repo_format (strip request_repo) = true →
  remote 1%nat = http.Timeout ∨
    (∃ r, remote 1%nat = http.Response r ∧ http.status_code r = 403) →
  ∃ error,
    scan_repo github_token remote (S fuel) request_repo db =
      Some (HTTPException 500 error "Failed to fetch issues from GitHub API",
            db, [1%nat]).
Proof.
  intros Hvalid Hremote. unfold scan_repo. rewrite Hvalid. simpl negb.
  cbv iota. unfold fetch_all_issues.
  destruct Hremote as [Ht|(r & Hr & H403)].
  - simpl. rewrite Ht. simpl. eauto.
  - rewrite (fetch_pages_403 _ _ _ _ _ _ r) by done.
    destruct (truthy github_token); simpl; eauto.
Qed.

Lemma scan_repo_timeout_or_rate_limit_witness :
  ∃ error,
    scan_repo None (remote_until 1 http.Timeout) 1 "a/b" two_repo_db =
      Some (HTTPException 500 error "Failed to fetch issues from GitHub API",
            two_repo_db, [1%nat]).
Proof.
  apply scan_repo_timeout_or_rate_limit; [reflexivity|]. left. reflexivity.
Defined.

(** X27.  The status of a failed scan is read off the error text: a fault
    of the transport whose text holds "not found", in any letter case, is
    reported with the status 404, as a missing repository is. *)
Theorem scan_repo_network_fault_as_404 (github_token : option string)
    (remote : nat → http.outcome) (fuel : nat) (request_repo : string)
    (db : Table) (msg : string) :
  validate_repo_format (strip request_repo) = true →
  remote 1%nat = http.RequestException msg →
  contains "not found" (lower msg) = true →
  scan_repo github_token remote (S fuel) request_repo db =
    Some (HTTPException 404 ("Network error while fetching issues: " +:+ msg)
            "Failed to fetch issues from GitHub API", db, [1%nat]).
Proof.
  intros Hvalid Hr Hmsg. unfold scan_repo. rewrite Hvalid. simpl negb.
  cbv iota. unfold fetch_all_issues, fetch_pages. rewrite Hr.
  unfold fetch_failed. cbn [fetched.success fetched.error negb].
  change (default "" (Some ?x)) with x.
  by rewrite lower_app, contains_app_r.
Qed.

Lemma scan_repo_network_fault_as_404_witness :
  scan_repo None
    (remote_until 1 (http.RequestException "Proxy error: Host Not Found"))
    1 "a/b" two_repo_db =
    Some (HTTPException 404
            ("Network error while fetching issues: " +:+
             "Proxy error: Host Not Found")
            "Failed to fetch issues from GitHub API", two_repo_db, [1%nat]).
Proof.
  apply (scan_repo_network_fault_as_404 None _ 0 "a/b" two_repo_db);
    reflexivity.
Defined.
